(** * Binary-heap priority queue, scheduler simulation and heapsort

  A shallow embedding of [prqueue/priority_queue.py] and
  [heap/heapsort.py], together with the properties stated about them.

  Python integers are unbounded, hence [Z]; list indices that the code
  computes are never negative, hence [nat].  [Task] objects are mutable
  and are shared by reference between the caller, the heap array and the
  timeline, so the heap holds references ([loc]) into an object store. *)

From Stdlib Require Import ZArith Lia List Permutation Sorted.
From stdpp Require Import base option list sorting gmap strings fin_maps.

Open Scope Z_scope.

(** ** Index arithmetic of an array-backed binary tree *)

(** [child i c]: slot [c] is the left ([2i+1]) or the right ([2i+2])
    child of slot [i]. *)
Definition child (i c : nat) : Prop := (c = 2 * i + 1 \/ c = 2 * i + 2)%nat.

(** The keys of an array seen as a function of the slot; [exch] is the
    effect on the keys of exchanging two slots. *)
Definition exch (K : nat -> Z) (i j : nat) : nat -> Z :=
  fun m => if (m =? i)%nat then K j else if (m =? j)%nat then K i else K m.

(** Every parent in [lo, n) dominates its children below [n]. *)
Definition ordered (K : nat -> Z) (lo n : nat) : Prop :=
  forall i c, (lo <= i)%nat -> (c < n)%nat -> child i c -> K c <= K i.

(** Order everywhere except between slot [j] and its parent; the children
    of [j] are nevertheless dominated by the parent of [j]. *)
Definition up_hole (K : nat -> Z) (n j : nat) : Prop :=
  (forall i c, (c < n)%nat -> child i c -> c <> j -> K c <= K i) /\
  (forall p c, child p j -> child j c -> (c < n)%nat -> K c <= K p).

(** Order everywhere in [lo, n) except between slot [j] and its children;
    the children of [j] are nevertheless dominated by the parent of [j]. *)
Definition down_hole (K : nat -> Z) (lo n j : nat) : Prop :=
  (forall i c, (lo <= i)%nat -> (c < n)%nat -> child i c -> i <> j -> K c <= K i) /\
  (forall p c, (lo <= p)%nat -> child p j -> child j c -> (c < n)%nat -> K c <= K p).


(** ** Python lists as arrays *)

(** [l[i], l[j] = l[j], l[i]]: the right-hand side is read first
    ([l[j]], then [l[i]]), so an index out of range raises before
    anything is written; [None] stands for that [IndexError]. *)
Definition list_swap {A} (l : list A) (i j : nat) : option (list A) :=
  match l !! j, l !! i with
  | Some x, Some y => Some (<[j := y]> (<[i := x]> l))
  | _, _ => None
  end.


(** ** Tasks, the object store and exceptions *)

(** [@dataclass(order=True) class Task]: only [priority] takes part in
  comparisons.  [payload] is an opaque dictionary that no function of the
  program inspects. *)
Record Task := mkTask {
priority : Z;
task_id : string;
arrival_time : option Z;
deadline : option Z;
payload : option (gmap string Z)
}.

(** A reference to a [Task] object, and the objects behind the references
  (a Python reference always designates an object, hence a total map). *)
Definition loc := nat.
Definition store := loc -> Task.

Inductive exn := IndexError | KeyError.

Inductive res (A : Type) : Type :=
| Ok (a : A)
| Raise (e : exn).
Arguments Ok {A} a.
Arguments Raise {A} e.

(** Python's [a or d] on an optional integer: [None] and [0] are falsy. *)
Definition py_or (a : option Z) (d : Z) : Z :=
match a with
| Some v => if v =? 0 then d else v
| None => d
end.

(** ** [class PriorityQueue] *)

Module PriorityQueue.

(** The fields of a [PriorityQueue] object, together with the [Task]
    objects its heap refers to. *)
Record state := State {
  objs : store;
  use_max_heap : bool;
  heap : list loc;
  position : gmap string nat
}.

Definition set_objs (o : store) (s : state) : state :=
  State o (use_max_heap s) (heap s) (position s).
Definition set_heap (h : list loc) (s : state) : state :=
  State (objs s) (use_max_heap s) h (position s).
Definition set_position (p : gmap string nat) (s : state) : state :=
  State (objs s) (use_max_heap s) (heap s) p.

(** A method call runs on the current state and either returns or raises;
    what it wrote before raising stays written. *)
Definition M (A : Type) : Type := state -> res A * state.

Definition ret {A} (a : A) : M A := fun s => (Ok a, s).
Definition raise {A} (e : exn) : M A := fun s => (Raise e, s).
Definition bind {A B} (m : M A) (k : A -> M B) : M B :=
  fun s => match m s with
           | (Ok a, s') => k a s'
           | (Raise e, s') => (Raise e, s')
           end.
Definition gets {A} (f : state -> A) : M A := fun s => (Ok (f s), s).
Definition modify (f : state -> state) : M unit := fun s => (Ok tt, f s).

Notation "'let*' x ':=' m 'in' k" := (bind m (fun x => k))
  (at level 10, x name, m at level 100, k at level 200).
Notation "m ';;' k" := (bind m (fun _ => k))
  (at level 100, k at level 200, right associativity).

(** [__init__]: an empty heap and an empty position map. *)
Definition init (o : store) (use_max_heap : bool) : state :=
  State o use_max_heap [] ∅.

(** [self.heap[i]] *)
Definition heap_at (i : nat) : M loc :=
  fun s => match heap s !! i with
           | Some t => (Ok t, s)
           | None => (Raise IndexError, s)
           end.

(** [self.position[task.task_id] = i] *)
Definition set_pos (task : loc) (i : nat) : M unit :=
  modify (fun s => set_position (<[task_id (objs s task) := i]> (position s)) s).

Definition _key (s : state) (task : loc) : Z :=
  if use_max_heap s then priority (objs s task) else - priority (objs s task).

(** [self._key(self.heap[i])] *)
Definition key_at (i : nat) : M Z :=
  let* t := heap_at i in gets (fun s => _key s t).

Definition _swap (i j : nat) : M unit :=
  (fun s => match list_swap (heap s) i j with
            | Some h => (Ok tt, set_heap h s)
            | None => (Raise IndexError, s)
            end) ;;
  (let* a := heap_at i in set_pos a i) ;;
  (let* b := heap_at j in set_pos b j).

(** The [while idx > 0] loop.  [idx] strictly decreases, so [fuel = idx]
    iterations always suffice (see [_sift_up_loop_fuel]). *)
Fixpoint _sift_up_loop (fuel : nat) (idx : nat) : M unit :=
  match fuel with
  | O => ret tt
  | S fuel' =>
      if (0 <? idx)%nat then
        let parent := ((idx - 1) / 2)%nat in
        let* kp := key_at parent in
        let* ki := key_at idx in
        if kp <? ki then _swap parent idx ;; _sift_up_loop fuel' parent
        else ret tt
      else ret tt
  end.

Definition _sift_up (idx : nat) : M unit := _sift_up_loop idx idx.

(** The [while True] loop with [n = len(self.heap)] read once.  [idx]
    strictly increases and the loop stops as soon as there is no child
    below [n], so [fuel = n - idx] iterations always suffice (see
    [_sift_down_loop_fuel]). *)
Fixpoint _sift_down_loop (fuel : nat) (n : nat) (idx : nat) : M unit :=
  match fuel with
  | O => ret tt
  | S fuel' =>
      let left := (2 * idx + 1)%nat in
      let right := (2 * idx + 2)%nat in
      let largest := idx in
      let* largest :=
        if (left <? n)%nat then
          let* kl := key_at left in
          let* kc := key_at largest in
          ret (if kl >? kc then left else largest)
        else ret largest in
      let* largest :=
        if (right <? n)%nat then
          let* kr := key_at right in
          let* kc := key_at largest in
          ret (if kr >? kc then right else largest)
        else ret largest in
      if negb (largest =? idx)%nat then
        _swap idx largest ;; _sift_down_loop fuel' n largest
      else ret tt
  end.

Definition _sift_down (idx : nat) : M unit :=
  let* n := gets (fun s => length (heap s)) in
  _sift_down_loop (n - idx) n idx.

Definition insert (task : loc) : M unit :=
  modify (fun s => set_heap (heap s ++ [task]) s) ;;
  let* idx := gets (fun s => (length (heap s) - 1)%nat) in
  set_pos task idx ;;
  _sift_up idx.

Definition is_empty (s : state) : bool :=
  (length (heap s) =? 0)%nat.

(** [self.heap.pop()] on a non-empty list. *)
Definition heap_pop : M loc :=
  fun s => match last (heap s) with
           | Some t => (Ok t, set_heap (removelast (heap s)) s)
           | None => (Raise IndexError, s)
           end.

(** [del self.position[task.task_id]] *)
Definition del_pos (task : loc) : M unit :=
  fun s => let k := task_id (objs s task) in
           match position s !! k with
           | Some _ => (Ok tt, set_position (delete k (position s)) s)
           | None => (Raise KeyError, s)
           end.

(** [self.heap[i] = task] *)
Definition heap_set (i : nat) (task : loc) : M unit :=
  fun s => if (i <? length (heap s))%nat
           then (Ok tt, set_heap (<[i := task]> (heap s)) s)
           else (Raise IndexError, s).

Definition extract_top : M loc :=
  let* empty := gets is_empty in
  if empty then raise IndexError
  else
    let* top := heap_at 0 in
    let* last := heap_pop in
    del_pos top ;;
    (let* empty := gets is_empty in
     if negb empty then
       heap_set 0 last ;; set_pos last 0 ;; _sift_down 0
     else ret tt) ;;
    ret top.

(** [task.priority = new_priority]: written into the object, hence seen
    through every reference to it. *)
Definition set_priority (task : loc) (new_priority : Z) : M unit :=
  modify (fun s =>
    set_objs (fun l => if decide (l = task)
                       then let t := objs s l in
                            mkTask new_priority (task_id t) (arrival_time t)
                                   (deadline t) (payload t)
                       else objs s l) s).

Definition increase_key (task_id : string) (new_priority : Z) : M unit :=
  let* idx := gets (fun s => position s !! task_id) in
  match idx with
  | None => raise KeyError
  | Some idx =>
      let* task := heap_at idx in
      let* old_priority := gets (fun s => priority (objs s task)) in
      set_priority task new_priority ;;
      let* max_heap := gets use_max_heap in
      if max_heap then
        if new_priority >=? old_priority then _sift_up idx else _sift_down idx
      else
        if new_priority >=? old_priority then _sift_down idx else _sift_up idx
  end.

Definition decrease_key (task_id : string) (new_priority : Z) : M unit :=
  increase_key task_id new_priority.

End PriorityQueue.

Import PriorityQueue.

(** *** Sequences of calls on a queue *)

(** A caller may invoke the public methods in any order; a call that raises
    leaves the queue as it was at the point of the [raise]. *)
Inductive call :=
| Insert (task : loc)
| ExtractTop
| IncreaseKey (task_id : string) (new_priority : Z)
| DecreaseKey (task_id : string) (new_priority : Z).

Definition run_call (c : call) (s : state) : state :=
  match c with
  | Insert task => snd (insert task s)
  | ExtractTop => snd (extract_top s)
  | IncreaseKey id p => snd (increase_key id p s)
  | DecreaseKey id p => snd (decrease_key id p s)
  end.

Definition run_calls (cs : list call) (s : state) : state :=
  foldl (fun s c => run_call c s) s cs.

(** The [Task] objects handed to [insert] by a sequence of calls. *)
Definition inserted (cs : list call) : list loc :=
  omap (fun c => match c with Insert t => Some t | _ => None end) cs.

(** No [Task] object is handed to [insert] while the heap already holds it. *)
Fixpoint inserts_fresh (cs : list call) (s : state) : bool :=
  match cs with
  | [] => true
  | c :: cs' =>
      match c with
      | Insert t => bool_decide (t ∉ heap s)
      | _ => true
      end && inserts_fresh cs' (run_call c s)
  end.

(** Load a queue with the given tasks, then extract [n] times. *)
Fixpoint load (tasks : list loc) : M unit :=
  match tasks with
  | [] => ret tt
  | t :: tasks' => insert t ;; load tasks'
  end.

Fixpoint drain (n : nat) : M (list loc) :=
  match n with
  | O => ret []
  | S n' => let* t := extract_top in let* out := drain n' in ret (t :: out)
  end.

(** *** The invariants of the queue *)

(** Heap order: every slot dominates its children, by effective key. *)
Definition heap_inv (s : state) : Prop :=
  forall i c ti tc, child i c ->
    heap s !! i = Some ti -> heap s !! c = Some tc -> _key s tc <= _key s ti.

(** Every entry of the position map designates a slot holding a task with
    that id. *)
Definition pos_sound (s : state) : Prop :=
  forall id i, position s !! id = Some i ->
    exists t, heap s !! i = Some t /\ task_id (objs s t) = id.

(** Every resident task is found by the position map at its slot. *)
Definition pos_complete (s : state) : Prop :=
  forall i t, heap s !! i = Some t -> position s !! task_id (objs s t) = Some i.

Definition pos_inv (s : state) : Prop :=
  pos_sound s /\ pos_complete s /\ size (position s) = length (heap s).

(** The root's task is known to the position map (what [extract_top]'s
    [del] relies on). *)
Definition top_registered (s : state) : Prop :=
  forall t, heap s !! 0%nat = Some t ->
    is_Some (position s !! task_id (objs s t)).

(** The effective key held by slot [i] (0 beyond the end of the heap). *)
Definition kat (s : state) (i : nat) : Z :=
  match heap s !! i with
  | Some t => _key s t
  | None => 0
  end.

(** [s'] is [s] with the slots of its heap rearranged: same objects, same
    tasks, and the position map kept in step. *)
Definition rearranged (s s' : state) : Prop :=
  objs s' = objs s /\ use_max_heap s' = use_max_heap s /\
  heap s' ≡ₚ heap s /\
  (top_registered s -> top_registered s') /\
  (pos_sound s -> pos_sound s') /\
  (pos_complete s -> pos_complete s').

(** The slot [_sift_down] selects among [idx] and its children below [n],
    as a function of the keys. *)
Definition pick_largest (K : nat -> Z) (n idx : nat) : nat :=
  let largest := idx in
  let largest :=
    if (2 * idx + 1 <? n)%nat && (K (2 * idx + 1)%nat >? K largest)
    then (2 * idx + 1)%nat else largest in
  if (2 * idx + 2 <? n)%nat && (K (2 * idx + 2)%nat >? K largest)
  then (2 * idx + 2)%nat else largest.

(** What every call preserves, provided no object enters the heap twice. *)
Definition order_inv (s : state) : Prop :=
  heap_inv s /\ NoDup (heap s) /\ top_registered s.

(** The id a [Task] object was created with. *)
Definition id_of (o : store) (t : loc) : string := task_id (o t).

(** What every call preserves when no id is inserted twice; [o] holds the
    objects as they were before the first call. *)
Definition position_inv (o : store) (s : state) : Prop :=
  pos_sound s /\ pos_complete s /\ forall l, task_id (objs s l) = id_of o l.

(** *** Concrete scenarios *)

(** One [Task] object [x] inserted twice around a second task [y]; then
    the priority of [x] is lowered. *)
Definition alias_store : store :=
  fun l => match l with
           | O => mkTask 5 "x" None None None
           | _ => mkTask 3 "y" None None None
           end.

Definition alias_calls : list call :=
  [Insert 0%nat; Insert 1%nat; Insert 0%nat; IncreaseKey "x" 0].

(** Two distinct [Task] objects that carry the same id. *)
Definition twin_store : store :=
  fun l => match l with
           | O => mkTask 1 "x" None None None
           | _ => mkTask 2 "x" None None None
           end.

(** The queue [[A:3, B:5, C:1]]. *)
Definition abc_store : store :=
  fun l => match l with
           | 0%nat => mkTask 3 "A" None None None
           | 1%nat => mkTask 5 "B" None None None
           | _ => mkTask 1 "C" None None None
           end.

(** ** [simulate_scheduler] *)

(** Python's built-in [sorted(xs, key=k)] is a stable sort: elements with
    equal keys keep their relative order.  That determines the result, which
    a stable insertion sort computes. *)
Fixpoint sorted_insert {A} (key : A -> Z) (x : A) (l : list A) : list A :=
  match l with
  | [] => [x]
  | y :: l' => if key x <=? key y then x :: y :: l' else y :: sorted_insert key x l'
  end.

Definition sorted {A} (key : A -> Z) (l : list A) : list A :=
  foldr (sorted_insert key) [] l.

(** The local variables of the simulation loop ([cur] is the cursor [i]). *)
Record sim := Sim {
  time_now : Z;
  cur : nat;
  timeline : list (Z * loc)
}.

(** [while i < len(pending) and (pending[i].arrival_time or 0) <= time_now]:
    the loop walks [pending] from [i] on, so it is a recursion on
    [pending[i:]]; it returns the new value of [i]. *)
Fixpoint admission_loop (rest : list loc) (time_now : Z) (i : nat) : M nat :=
  match rest with
  | [] => ret i
  | t :: rest' =>
      let* arr := gets (fun s => arrival_time (objs s t)) in
      if py_or arr 0 <=? time_now
      then insert t ;; admission_loop rest' time_now (S i)
      else ret i
  end.

Definition admission (pending : list loc) (time_now : Z) (i : nat) : M nat :=
  admission_loop (drop i pending) time_now i.

(** The condition of the outer [while]. *)
Definition sim_cond (pending : list loc) (v : sim) (s : state) : bool :=
  (cur v <? length pending)%nat || negb (is_empty s).

(** One iteration of the outer [while]. *)
Definition sim_body (pending : list loc) (v : sim) : M sim :=
  let* i := admission pending (time_now v) (cur v) in
  let* empty := gets is_empty in
  if empty then
    let* t := match pending !! i with
              | Some p =>
                  let* arr := gets (fun s => arrival_time (objs s p)) in
                  ret (py_or arr (time_now v))
              | None => ret (time_now v)
              end in
    ret (Sim t i (timeline v))
  else
    let* current := extract_top in
    ret (Sim (time_now v + 1) i (timeline v ++ [(time_now v, current)])).

(** The outer [while], for at most [fuel] evaluations of its condition:
    [None] when they do not suffice, otherwise the returned timeline or the
    exception that escaped. *)
Fixpoint sim_loop (fuel : nat) (pending : list loc) (v : sim) (s : state)
  : option (res (list (Z * loc))) :=
  match fuel with
  | O => None
  | S fuel' =>
      if sim_cond pending v s then
        match sim_body pending v s with
        | (Ok v', s') => sim_loop fuel' pending v' s'
        | (Raise e, _) => Some (Raise e)
        end
      else Some (Ok (timeline v))
  end.

Definition arrival_key (o : store) (t : loc) : Z :=
  match arrival_time (o t) with Some a => a | None => 0 end.

Definition simulate_scheduler_fuel (fuel : nat) (o : store) (tasks : list loc)
    (use_max_heap : bool) : option (res (list (Z * loc))) :=
  let pending := sorted (arrival_key o) tasks in
  sim_loop fuel pending (Sim 0 0 []) (init o use_max_heap).

(** Every iteration but the last admits, extracts or skips idle time, and
    an idle skip is followed by an admission, so [2 * len(tasks) + 2]
    evaluations of the loop condition always suffice (see
    [simulate_scheduler_fuel_enough]). *)
Definition simulate_scheduler (o : store) (tasks : list loc)
    (use_max_heap : bool) : option (res (list (Z * loc))) :=
  simulate_scheduler_fuel (2 * length tasks + 2) o tasks use_max_heap.

(** *** The states the simulation loop goes through *)

(** The states [(v, s)] found at the head of the outer [while] when
    [simulate_scheduler] runs on the pending list [pending]. *)
Inductive sim_reach (o : store) (m : bool) (pending : list loc)
  : sim -> state -> Prop :=
| reach_init : sim_reach o m pending (Sim 0 0 []) (init o m)
| reach_step v s v' s' :
    sim_reach o m pending v s ->
    sim_cond pending v s = true ->
    sim_body pending v s = (Ok v', s') ->
    sim_reach o m pending v' s'.

(** The next iteration can only skip idle time: the queue is empty and the
    next pending task has not arrived. *)
Definition needs_jump (pending : list loc) (v : sim) (s : state) : bool :=
  is_empty s &&
  match pending !! cur v with
  | Some p => negb (py_or (arrival_time (objs s p)) 0 <=? time_now v)
  | None => false
  end.

(** A bound on the number of iterations still to come. *)
Definition sim_measure (pending : list loc) (v : sim) (s : state) : nat :=
  2 * (length pending - cur v) + 2 * length (heap s) +
  (if needs_jump pending v s then 1 else 0).

(** The invariant of the outer [while]. *)
Definition sim_inv (o : store) (pending : list loc) (v : sim) (s : state)
  : Prop :=
  objs s = o /\ 0 <= time_now v /\ top_registered s /\
  (cur v <= length pending)%nat /\
  (timeline v).*2 ++ heap s ≡ₚ take (cur v) pending /\
  Forall (fun e => e.1 < time_now v) (timeline v) /\
  StronglySorted Z.lt (timeline v).*1.

(** The scenario of [main.py]. *)
Definition main_store : store :=
  fun l => match l with
           | 0%nat => mkTask 3 "A" (Some 0) (Some 5) None
           | 1%nat => mkTask 5 "B" (Some 1) (Some 3) None
           | 2%nat => mkTask 1 "C" (Some 2) (Some 6) None
           | _ => mkTask 4 "D" (Some 0) (Some 4) None
           end.

(** One task that arrives at time 10. *)
Definition late_store : store :=
  fun _ => mkTask 7 "late" (Some 10) None None.

(** ** [heapsort] *)

Module Heapsort.

(** The loop of the local function [sift_down(a, start, end)], which
    rearranges [a] in place; the model returns the new contents, and [None]
    for an [IndexError].  [root] strictly increases and the loop stops once
    [2 * root + 1 > end], so [fuel = end - root] iterations always suffice
    (see [heapsort_sift_down_loop_fuel]). *)
Fixpoint sift_down_loop (fuel : nat) (a : list Z) (root end_ : nat)
  : option (list Z) :=
  match fuel with
  | O => Some a
  | S fuel' =>
      let child := (2 * root + 1)%nat in
      if (end_ <? child)%nat then Some a
      else
        child ←
          (if (child + 1 <=? end_)%nat then
             x ← a !! child; y ← a !! (child + 1)%nat;
             Some (if x <? y then (child + 1)%nat else child)
           else Some child);
        r ← a !! root; c ← a !! child;
        if r <? c then
          a' ← list_swap a root child; sift_down_loop fuel' a' child end_
        else Some a
  end.

Definition sift_down (a : list Z) (start end_ : nat) : option (list Z) :=
  sift_down_loop (end_ - start) a start end_.

(** [range(from, -1, -1)] for an integer [from]: empty when [from < 0]. *)
Definition range_down_to_0 (from : Z) : list nat :=
  rev (seq 0 (Z.to_nat (from + 1))).

(** [for start in range((n - 2) // 2, -1, -1): sift_down(a, start, n - 1)];
    the body only runs when [n >= 2], where [n - 1] is not negative. *)
Fixpoint build_loop (starts : list nat) (n : nat) (a : list Z)
  : option (list Z) :=
  match starts with
  | [] => Some a
  | start :: starts' => a' ← sift_down a start (n - 1); build_loop starts' n a'
  end.

(** [for end in range(n - 1, 0, -1)]: exchange [a[0]] and [a[end]], then
    [sift_down(a, 0, end - 1)]. *)
Fixpoint sort_loop (ends : list nat) (a : list Z) : option (list Z) :=
  match ends with
  | [] => Some a
  | end_ :: ends' =>
      a1 ← list_swap a 0 end_;
      a2 ← sift_down a1 0 (end_ - 1);
      sort_loop ends' a2
  end.

Definition heapsort (arr : list Z) : option (list Z) :=
  let a := arr in
  let n := length a in
  a ← build_loop (range_down_to_0 ((Z.of_nat n - 2) / 2)) n a;
  sort_loop (rev (seq 1 (n - 1))) a.

End Heapsort.

(** *** Reading the array of [heapsort] *)

(** The element in slot [i] (0 beyond the end of the array). *)
Definition zat (a : list Z) (i : nat) : Z :=
  match a !! i with
  | Some x => x
  | None => 0
  end.

(** The child [sift_down] compares the root with: the right child when it
    lies within [end_] and is larger than the left one, else the left one. *)
Definition pick_child (K : nat -> Z) (end_ root : nat) : nat :=
  let child := (2 * root + 1)%nat in
  if (child + 1 <=? end_)%nat && (K child <? K (child + 1)%nat)
  then (child + 1)%nat else child.

(** [a'] is [a] with the slots up to [end_] rearranged among themselves. *)
Definition shuffled (end_ : nat) (a a' : list Z) : Prop :=
  length a' = length a /\ a' ≡ₚ a /\
  (forall m, (end_ < m)%nat -> a' !! m = a !! m) /\
  (forall i x, (i <= end_)%nat -> a' !! i = Some x ->
     exists i', (i' <= end_)%nat /\ a !! i' = Some x).

(** The slots from [k] on are in non-decreasing order. *)
Definition sorted_from (a : list Z) (k : nat) : Prop :=
  forall i j x y, (k <= i)%nat -> (i <= j)%nat ->
    a !! i = Some x -> a !! j = Some y -> x <= y.

(** The invariant of the second loop of [heapsort], before the iteration
    for [end = e + 1]: slots [0..e] form a heap, the slots after [e] are
    sorted and hold the largest elements. *)
Definition sort_inv (a : list Z) (e : nat) : Prop :=
  ordered (zat a) 0 (S e) /\ sorted_from a (S e) /\
  (forall i j x y, (i <= e)%nat -> (e < j)%nat ->
     a !! i = Some x -> a !! j = Some y -> x <= y).

(** *** What the simulation guarantees about its timeline *)

(** No entry of the timeline runs a task before its arrival time. *)
Definition on_time (o : store) (tl : list (Z * loc)) : Prop :=
  Forall (fun e => arrival_key o e.2 <= e.1) tl.

(** A task that runs later although it had arrived when an earlier entry
    was dispatched does not have a greater effective key than the task of
    that entry. *)
Definition best_first (o : store) (m : bool) (tl : list (Z * loc)) : Prop :=
  forall i j e e', (i < j)%nat -> tl !! i = Some e -> tl !! j = Some e' ->
    arrival_key o e'.2 <= e.1 ->
    _key (init o m) e'.2 <= _key (init o m) e.2.

(** What the outer [while] keeps besides [sim_inv]: the queue is in heap
    order and only holds tasks that have arrived; the timeline so far is on
    time and best-first, also with regard to the tasks still to run. *)
Definition sched_inv (o : store) (m : bool) (pending : list loc)
    (v : sim) (s : state) : Prop :=
  use_max_heap s = m /\ heap_inv s /\
  Forall (fun y => arrival_key o y <= time_now v) (heap s) /\
  on_time o (timeline v) /\ best_first o m (timeline v) /\
  (forall e y, e ∈ timeline v -> y ∈ heap s ++ drop (cur v) pending ->
     arrival_key o y <= e.1 ->
     _key (init o m) y <= _key (init o m) e.2).




(** * Properties *)

Import Heapsort.

(** ** Order in an array-backed binary tree *)

Section HeapOrder.

Lemma child_parent (j : nat) : (0 < j)%nat -> child ((j - 1) / 2) j.
Proof.
  unfold child. intros Hj.
  pose proof (Nat.div_mod_eq (j - 1) 2) as Hd.
  pose proof (Nat.mod_upper_bound (j - 1) 2) as Hm. lia.
Qed.

Lemma exch_l K i j : exch K i j i = K j.
Proof. unfold exch. now rewrite Nat.eqb_refl. Qed.

Lemma exch_r K i j : exch K i j j = K i.
Proof.
  unfold exch. destruct (Nat.eqb_spec j i) as [->|_]; [done|].
  now rewrite Nat.eqb_refl.
Qed.

Lemma exch_other K i j m : m <> i -> m <> j -> exch K i j m = K m.
Proof.
  unfold exch. intros Hi Hj.
  destruct (Nat.eqb_spec m i); [done|]. destruct (Nat.eqb_spec m j); done.
Qed.


Lemma ordered_ext K K' lo n :
  (forall m, (m < n)%nat -> K' m = K m) -> ordered K lo n -> ordered K' lo n.
Proof.
  intros Heq H i c Hi Hc Hic.
  rewrite !Heq; [by apply H| |done]. unfold child in Hic. lia.
Qed.

(** The root of an ordered array carries the greatest key. *)
Lemma ordered_root_max K n :
  ordered K 0 n -> forall i, (i < n)%nat -> K i <= K 0%nat.
Proof.
  intros H i. induction i as [i IH] using lt_wf_ind. intros Hi.
  destruct i as [|i']; [lia|].
  pose proof (child_parent (S i') ltac:(lia)) as Hc.
  set (p := ((S i' - 1) / 2)%nat) in *.
  assert (p < S i')%nat as Hp by (unfold child in Hc; lia).
  transitivity (K p); [apply H; [lia|done|done]|apply IH; lia].
Qed.

(** *** Moving a key towards the root *)

Lemma up_hole_append K n : ordered K 0 n -> up_hole K (S n) n.
Proof.
  intros H. split.
  - intros i c Hc Hic Hne. apply H; [lia|lia|done].
  - intros p c _ Hjc Hc. unfold child in Hjc. lia.
Qed.

Lemma up_hole_raise K K' n j :
  ordered K 0 n -> (forall m, m <> j -> K' m = K m) -> K j <= K' j ->
  up_hole K' n j.
Proof.
  intros H Hoff Hj. split.
  - intros i c Hc Hic Hne. rewrite (Hoff c Hne).
    destruct (decide (i = j)) as [->|Hi].
    + transitivity (K j); [apply H; [lia|done|done]|done].
    + rewrite (Hoff i Hi). apply H; [lia|done|done].
  - intros p c Hpj Hjc Hc.
    assert (c <> j /\ p <> j) as [Hcj Hpj'] by (unfold child in *; lia).
    rewrite (Hoff c Hcj), (Hoff p Hpj').
    transitivity (K j); apply H; try done; unfold child in *; lia.
Qed.

Lemma up_hole_step K n j p :
  child p j -> up_hole K n j -> K p < K j -> up_hole (exch K p j) n p.
Proof.
  intros Hpj [H1 H2] Hlt. split.
  - intros i c Hc Hic Hne.
    destruct (decide (c = j)) as [->|Hcj].
    + assert (i = p) as -> by (unfold child in *; lia).
      rewrite exch_l, exch_r. lia.
    + rewrite (exch_other K p j c) by done.
      destruct (decide (i = p)) as [->|Hip].
      * rewrite exch_l. specialize (H1 p c Hc Hic Hcj). lia.
      * destruct (decide (i = j)) as [->|Hij].
        -- rewrite exch_r. by apply H2.
        -- rewrite exch_other by done. by apply H1.
  - intros pp c Hppp Hpc Hc.
    assert (pp <> p /\ pp <> j) as [? ?] by (unfold child in *; lia).
    rewrite (exch_other K p j pp) by done.
    assert (K p <= K pp) as Hpp.
    { apply H1; [unfold child in *; lia|done|unfold child in *; lia]. }
    destruct (decide (c = j)) as [->|Hcj].
    + by rewrite exch_r.
    + rewrite exch_other; [|unfold child in *; lia|done].
      specialize (H1 p c Hc Hpc Hcj). lia.
Qed.

Lemma up_hole_done K n j p :
  child p j -> up_hole K n j -> K j <= K p -> ordered K 0 n.
Proof.
  intros Hpj [H1 _] Hle i c _ Hc Hic.
  destruct (decide (c = j)) as [->|Hcj]; [|by apply H1].
  assert (i = p) as -> by (unfold child in *; lia). done.
Qed.

Lemma up_hole_root K n : up_hole K n 0 -> ordered K 0 n.
Proof.
  intros [H1 _] i c _ Hc Hic. apply H1; [done|done|unfold child in *; lia].
Qed.

(** *** Moving a key towards the leaves *)

Lemma down_hole_start K n j : ordered K (S j) n -> down_hole K j n j.
Proof.
  intros H. split.
  - intros i c Hi Hc Hic Hne. apply H; [lia|done|done].
  - intros p c Hp Hpj _ _. unfold child in Hpj. lia.
Qed.

Lemma down_hole_lower K K' lo n j :
  ordered K lo n -> (forall m, m <> j -> K' m = K m) -> K' j <= K j ->
  down_hole K' lo n j.
Proof.
  intros H Hoff Hj. split.
  - intros i c Hi Hc Hic Hne. rewrite (Hoff i Hne).
    destruct (decide (c = j)) as [->|Hcj].
    + specialize (H i j Hi Hc Hic). lia.
    + rewrite (Hoff c Hcj). by apply H.
  - intros p c Hp Hpj Hjc Hc.
    assert (c <> j /\ p <> j /\ (j < n)%nat /\ (lo <= j)%nat) as (? & ? & ? & ?)
      by (unfold child in *; lia).
    rewrite (Hoff c), (Hoff p) by done.
    transitivity (K j); by apply H.
Qed.

Lemma down_hole_step K lo n j l :
  (lo <= j)%nat -> child j l -> (l < n)%nat -> down_hole K lo n j ->
  K j < K l -> (forall c, child j c -> (c < n)%nat -> K c <= K l) ->
  down_hole (exch K j l) lo n l.
Proof.
  intros Hlo Hjl Hl [H1 H2] Hlt Hmax. split.
  - intros i c Hi Hc Hic Hne.
    destruct (decide (i = j)) as [->|Hij].
    + rewrite exch_l.
      destruct (decide (c = l)) as [->|Hcl]; [rewrite exch_r; lia|].
      rewrite exch_other; [by apply Hmax|unfold child in *; lia|done].
    + rewrite (exch_other K j l i) by done.
      destruct (decide (c = j)) as [->|Hcj].
      * rewrite exch_l. by apply (H2 i l).
      * rewrite exch_other; [by apply H1|done|unfold child in *; lia].
  - intros p c Hp Hpl Hlc Hc.
    assert (p = j) as -> by (unfold child in *; lia).
    rewrite exch_l, exch_other; [|unfold child in *; lia..].
    apply H1; [unfold child in *; lia|done|done|unfold child in *; lia].
Qed.

Lemma down_hole_done K lo n j :
  down_hole K lo n j -> (forall c, child j c -> (c < n)%nat -> K c <= K j) ->
  ordered K lo n.
Proof.
  intros [H1 _] Hj i c Hi Hc Hic.
  destruct (decide (i = j)) as [->|Hij]; [by apply Hj|by apply H1].
Qed.

Lemma up_hole_ext K K' n j :
  (forall m, K' m = K m) -> up_hole K n j -> up_hole K' n j.
Proof.
  intros Heq [H1 H2]. split; intros; rewrite !Heq; eauto.
Qed.

Lemma down_hole_ext K K' lo n j :
  (forall m, K' m = K m) -> down_hole K lo n j -> down_hole K' lo n j.
Proof.
  intros Heq [H1 H2]. split; intros; rewrite !Heq; eauto.
Qed.

Lemma pick_largest_spec K n idx :
  let l := pick_largest K n idx in
  (l = idx /\ forall c, child idx c -> (c < n)%nat -> K c <= K idx) \/
  (child idx l /\ (l < n)%nat /\ K idx < K l /\
   forall c, child idx c -> (c < n)%nat -> K c <= K l).
Proof.
  unfold pick_largest, child.
  destruct (Nat.ltb_spec (2 * idx + 1) n) as [Hl|Hl];
    destruct (Nat.ltb_spec (2 * idx + 2) n) as [Hr|Hr];
    destruct (Z.gtb_spec (K (2 * idx + 1)%nat) (K idx)); cbn [andb];
    repeat match goal with
           | |- context [?x >? ?y] => destruct (Z.gtb_spec x y); cbn [andb]
           end;
    try lia;
    first [ left; split; [done|intros c [->| ->] Hc; lia]
          | right; split; [lia|split; [lia|split; [lia|intros c [->| ->] Hc; lia]]] ].
Qed.

End HeapOrder.

(** ** Exchanging two slots of a list *)

Section PyList.
Context {A : Type}.

Lemma list_swap_is_Some (l : list A) i j :
  (i < length l)%nat -> (j < length l)%nat -> is_Some (list_swap l i j).
Proof.
  intros Hi Hj. unfold list_swap.
  destruct (lookup_lt_is_Some_2 l i Hi) as [y ->].
  destruct (lookup_lt_is_Some_2 l j Hj) as [x ->]. eauto.
Qed.

Lemma list_swap_length (l l' : list A) i j :
  list_swap l i j = Some l' -> length l' = length l.
Proof.
  unfold list_swap. destruct (l !! j), (l !! i); intros [= <-].
  by rewrite !length_insert.
Qed.

Lemma list_swap_lookup (l l' : list A) i j m :
  list_swap l i j = Some l' ->
  l' !! m = if decide (m = j) then l !! i
            else if decide (m = i) then l !! j else l !! m.
Proof.
  unfold list_swap.
  destruct (l !! j) as [x|] eqn:Hx; [|done].
  destruct (l !! i) as [y|] eqn:Hy; [|done]. intros [= <-].
  apply lookup_lt_Some in Hx as Hj. apply lookup_lt_Some in Hy as Hi.
  destruct (decide (m = j)) as [->|Hmj].
  - rewrite list_lookup_insert_eq; [done|by rewrite length_insert].
  - rewrite list_lookup_insert_ne by done.
    destruct (decide (m = i)) as [->|Hmi].
    + by rewrite list_lookup_insert_eq.
    + by rewrite list_lookup_insert_ne.
Qed.

Lemma insert_head_perm (l : list A) j x a :
  l !! j = Some x -> Permutation (x :: <[j := a]> l) (a :: l).
Proof.
  revert j. induction l as [|b l IH]; intros [|j] Hj; simplify_eq/=.
  - apply Permutation_swap.
  - transitivity (b :: x :: <[j := a]> l); [apply perm_swap|].
    transitivity (b :: a :: l); [by apply perm_skip, IH|apply perm_swap].
Qed.

Lemma list_swap_perm (l l' : list A) i j :
  list_swap l i j = Some l' -> Permutation l' l.
Proof.
  unfold list_swap.
  destruct (l !! j) as [x|] eqn:Hx; [|done].
  destruct (l !! i) as [y|] eqn:Hy; [|done]. intros [= <-].
  revert i j Hx Hy. induction l as [|b l IH]; intros [|i] [|j] Hx Hy;
    simplify_eq/=.
  - done.
  - by apply insert_head_perm.
  - by apply insert_head_perm.
  - constructor. by apply IH.
Qed.

End PyList.

(** ** The queue: exchanging two slots *)

Section Swap.

Lemma rearranged_refl s : rearranged s s.
Proof. by repeat split. Qed.

Lemma rearranged_trans s1 s2 s3 :
  rearranged s1 s2 -> rearranged s2 s3 -> rearranged s1 s3.
Proof.
  intros (Ho & Hm & Hp & Ht & Hs & Hc) (Ho' & Hm' & Hp' & Ht' & Hs' & Hc').
  repeat split; [congruence|congruence|by etrans|auto..].
Qed.

Lemma rearranged_length s s' : rearranged s s' -> length (heap s') = length (heap s).
Proof. intros (_ & _ & Hp & _). by rewrite Hp. Qed.

Lemma heap_at_Some s i t : heap s !! i = Some t -> heap_at i s = (Ok t, s).
Proof. unfold heap_at. by intros ->. Qed.

Lemma key_at_lt s i :
  (i < length (heap s))%nat -> key_at i s = (Ok (kat s i), s).
Proof.
  intros Hi. destruct (lookup_lt_is_Some_2 _ _ Hi) as [t Ht].
  unfold key_at, bind, kat, gets. by rewrite (heap_at_Some _ _ _ Ht), Ht.
Qed.

(** [_swap] on two slots of the heap: the heap array has them exchanged and
    the position map is told where the two tasks now are. *)
Lemma swap_run s i j a b :
  heap s !! i = Some a -> heap s !! j = Some b ->
  exists h, list_swap (heap s) i j = Some h /\
    _swap i j s =
      (Ok tt, State (objs s) (use_max_heap s) h
                (<[task_id (objs s a) := j]>
                   (<[task_id (objs s b) := i]> (position s)))).
Proof.
  intros Ha Hb.
  destruct (list_swap (heap s) i j) as [h|] eqn:Hh; cycle 1.
  { unfold list_swap in Hh. by rewrite Ha, Hb in Hh. }
  exists h. split; [done|].
  pose proof (list_swap_lookup _ _ _ _ i Hh) as Hi.
  pose proof (list_swap_lookup _ _ _ _ j Hh) as Hj.
  rewrite decide_True in Hj by done.
  assert (h !! i = Some b) as Hi'.
  { rewrite Hi. destruct (decide (i = j)) as [->|]; [congruence|].
    by rewrite decide_True. }
  unfold _swap, bind, set_pos, modify. rewrite Hh. cbn.
  unfold heap_at at 1. cbn. rewrite Hi'. cbn.
  unfold heap_at. cbn. rewrite Hj, Ha. done.
Qed.

Lemma swap_rearranged s i j a b h :
  heap s !! i = Some a -> heap s !! j = Some b ->
  list_swap (heap s) i j = Some h ->
  rearranged s (State (objs s) (use_max_heap s) h
                  (<[task_id (objs s a) := j]>
                     (<[task_id (objs s b) := i]> (position s)))).
Proof.
  intros Ha Hb Hh.
  assert (forall m, h !! m = if decide (m = j) then Some a
                             else if decide (m = i) then Some b
                             else heap s !! m) as Hlk.
  { intros m. rewrite (list_swap_lookup _ _ _ _ m Hh). by rewrite Ha, Hb. }
  split; [done|]. split; [done|]. split; [by eapply list_swap_perm|].
  split; [|split].
  - intros Htop t. cbn. rewrite Hlk. repeat case_decide; subst.
    + intros [= <-]. rewrite lookup_insert_eq. eauto.
    + intros [= <-]. rewrite lookup_insert.
      case_decide; [eauto|]. rewrite lookup_insert_eq. eauto.
    + intros Ht. specialize (Htop t Ht). rewrite !lookup_insert.
      repeat case_decide; eauto.
  - intros Hs id m. cbn. rewrite !lookup_insert.
    destruct (decide (task_id (objs s a) = id)) as [<-|Hna].
    { intros [= <-]. exists a. by rewrite Hlk, decide_True. }
    destruct (decide (task_id (objs s b) = id)) as [<-|Hnb].
    { intros [= <-]. exists b. rewrite Hlk.
      case_decide; [subst; congruence|]. by rewrite decide_True. }
    intros Hm. destruct (Hs id m Hm) as (t & Ht & Hid). exists t.
    split; [|done]. rewrite Hlk.
    repeat case_decide; subst; congruence.
  - intros Hc m t. cbn. rewrite Hlk, !lookup_insert.
    destruct (decide (m = j)) as [->|Hmj].
    { intros [= <-]. by rewrite decide_True. }
    destruct (decide (m = i)) as [->|Hmi].
    { intros [= <-]. case_decide as Hab; [|by rewrite decide_True].
      pose proof (Hc _ _ Ha) as Hpa. pose proof (Hc _ _ Hb) as Hpb.
      rewrite Hab in Hpa. congruence. }
    intros Ht. pose proof (Hc _ _ Ht) as Hpt.
    case_decide as Hta.
    { pose proof (Hc _ _ Ha) as Hpa. rewrite Hta in Hpa. congruence. }
    case_decide as Htb.
    { pose proof (Hc _ _ Hb) as Hpb. rewrite Htb in Hpb. congruence. }
    done.
Qed.

Lemma swap_kat s i j a b h p m :
  heap s !! i = Some a -> heap s !! j = Some b ->
  list_swap (heap s) i j = Some h ->
  kat (State (objs s) (use_max_heap s) h p) m = exch (kat s) i j m.
Proof.
  intros Ha Hb Hh. unfold kat, exch. cbn.
  rewrite (list_swap_lookup _ _ _ _ m Hh).
  destruct (Nat.eqb_spec m i) as [->|Hmi];
    [|destruct (Nat.eqb_spec m j) as [->|Hmj]];
    repeat case_decide; subst; done.
Qed.

End Swap.

(** ** The queue: [_sift_up] and [_sift_down] *)

Section Sift.

(** More fuel than [idx] changes nothing: [_sift_up_loop] is the loop. *)
Lemma _sift_up_loop_fuel f1 : forall f2 idx s,
  (idx <= f1)%nat -> (idx <= f2)%nat ->
  _sift_up_loop f1 idx s = _sift_up_loop f2 idx s.
Proof.
  induction f1 as [|f1 IH]; intros [|f2] idx s H1 H2; cbn [_sift_up_loop];
    try (replace idx with 0%nat by lia; done).
  destruct (Nat.ltb_spec 0 idx) as [Hpos|]; [|done].
  unfold bind.
  destruct (key_at ((idx - 1) / 2) s) as [[kp|] s1]; [|done].
  destruct (key_at idx s1) as [[ki|] s2]; [|done].
  destruct (kp <? ki); [|done].
  destruct (_swap ((idx - 1) / 2) idx s2) as [[[]|] s3]; [|done].
  pose proof (child_parent idx Hpos) as Hc. unfold child in Hc.
  apply IH; lia.
Qed.

Lemma sift_up_loop_run fuel : forall idx s,
  (idx <= fuel)%nat -> (idx < length (heap s))%nat ->
  exists s', _sift_up_loop fuel idx s = (Ok tt, s') /\ rearranged s s' /\
    (up_hole (kat s) (length (heap s)) idx ->
     ordered (kat s') 0 (length (heap s'))).
Proof.
  induction fuel as [|fuel IH]; intros idx s Hf Hlen.
  { replace idx with 0%nat by lia. exists s.
    split; [done|]. split; [apply rearranged_refl|apply up_hole_root]. }
  cbn [_sift_up_loop]. destruct (Nat.ltb_spec 0 idx) as [Hpos|Hz]; cycle 1.
  { replace idx with 0%nat by lia. exists s.
    split; [done|]. split; [apply rearranged_refl|apply up_hole_root]. }
  pose proof (child_parent idx Hpos) as Hc.
  set (parent := ((idx - 1) / 2)%nat) in *.
  assert (parent < idx)%nat as Hp by (unfold child in Hc; lia).
  unfold bind at 1. rewrite key_at_lt by lia.
  unfold bind at 1. rewrite key_at_lt by lia.
  destruct (Z.ltb_spec (kat s parent) (kat s idx)) as [Hlt|Hge]; cycle 1.
  { exists s. split; [done|]. split; [apply rearranged_refl|].
    intros Hup. by eapply up_hole_done. }
  destruct (lookup_lt_is_Some_2 (heap s) parent ltac:(lia)) as [a Ha].
  destruct (lookup_lt_is_Some_2 (heap s) idx Hlen) as [b Hb].
  destruct (swap_run s parent idx a b Ha Hb) as (h & Hh & Hrun).
  unfold bind. rewrite Hrun.
  pose proof (swap_rearranged s parent idx a b h Ha Hb Hh) as Hre.
  set (s1 := State _ _ h _) in *.
  assert (length (heap s1) = length (heap s)) as Hl1
    by (by apply rearranged_length).
  destruct (IH parent s1 ltac:(lia) ltac:(lia)) as (s' & Hs' & Hre' & Hord).
  exists s'. split; [done|]. split; [by eapply rearranged_trans|].
  intros Hup. apply Hord. rewrite Hl1.
  eapply up_hole_ext; [|by eapply up_hole_step].
  intros m. by eapply swap_kat.
Qed.

Lemma sift_up_run idx s :
  (idx < length (heap s))%nat ->
  exists s', _sift_up idx s = (Ok tt, s') /\ rearranged s s' /\
    (up_hole (kat s) (length (heap s)) idx ->
     ordered (kat s') 0 (length (heap s'))).
Proof. intros Hlen. by apply sift_up_loop_run. Qed.

(** One turn of the [while True] loop of [_sift_down]. *)
Lemma sift_down_loop_unfold fuel n idx s :
  n = length (heap s) ->
  _sift_down_loop (S fuel) n idx s =
    let l := pick_largest (kat s) n idx in
    if negb (l =? idx)%nat
    then (_swap idx l ;; _sift_down_loop fuel n l) s
    else (Ok tt, s).
Proof.
  intros ->. cbn [_sift_down_loop]. unfold pick_largest.
  set (n := length (heap s)).
  unfold bind at 1.
  destruct (Nat.ltb_spec (2 * idx + 1) n) as [Hl|Hl]; cbn [andb].
  - unfold bind at 1. rewrite key_at_lt by done.
    unfold bind at 1. rewrite key_at_lt by lia. unfold ret at 1.
    unfold bind at 1.
    destruct (Nat.ltb_spec (2 * idx + 2) n) as [Hr|Hr]; cbn [andb].
    + unfold bind at 1. rewrite key_at_lt by done.
      unfold bind at 1. rewrite key_at_lt by (destruct (_ >? _); lia).
      unfold ret. by destruct (negb _).
    + unfold ret. by destruct (negb _).
  - unfold ret at 1. unfold bind at 1.
    destruct (Nat.ltb_spec (2 * idx + 2) n) as [Hr|Hr]; [lia|].
    unfold ret. by destruct (negb _).
Qed.

(** More fuel than [n - idx] changes nothing: [_sift_down_loop] is the
    loop. *)
Lemma _sift_down_loop_fuel f1 : forall f2 idx s,
  (length (heap s) - idx <= f1)%nat -> (length (heap s) - idx <= f2)%nat ->
  _sift_down_loop f1 (length (heap s)) idx s =
  _sift_down_loop f2 (length (heap s)) idx s.
Proof.
  assert (forall f idx s, (length (heap s) <= idx)%nat ->
            _sift_down_loop f (length (heap s)) idx s = (Ok tt, s)) as Hout.
  { intros [|f] idx s Hle; [done|]. rewrite sift_down_loop_unfold by done.
    unfold pick_largest.
    destruct (Nat.ltb_spec (2 * idx + 1) (length (heap s))); [lia|].
    destruct (Nat.ltb_spec (2 * idx + 2) (length (heap s))); [lia|].
    cbn. by rewrite Nat.eqb_refl. }
  induction f1 as [|f1 IH]; intros f2 idx s H1 H2.
  { rewrite !Hout by lia. done. }
  destruct f2 as [|f2]; [rewrite !Hout by lia; done|].
  rewrite !sift_down_loop_unfold by done. cbn zeta.
  destruct (pick_largest_spec (kat s) (length (heap s)) idx)
    as [[-> _]|(Hc & Hl & _ & _)].
  { by rewrite Nat.eqb_refl. }
  set (l := pick_largest _ _ _) in *.
  destruct (Nat.eqb_spec l idx) as [|Hne]; [done|]. cbn [negb].
  destruct (lookup_lt_is_Some_2 (heap s) idx ltac:(unfold child in Hc; lia))
    as [a Ha].
  destruct (lookup_lt_is_Some_2 (heap s) l Hl) as [b Hb].
  destruct (swap_run s idx l a b Ha Hb) as (h & Hh & Hrun).
  unfold bind. rewrite Hrun.
  pose proof (list_swap_length _ _ _ _ Hh) as Hlen.
  set (s1 := State _ _ h _).
  replace (length (heap s)) with (length (heap s1)) by done.
  apply IH; cbn; unfold child in Hc; lia.
Qed.

Lemma sift_down_loop_run fuel : forall idx s,
  (length (heap s) - idx <= fuel)%nat ->
  exists s', _sift_down_loop fuel (length (heap s)) idx s = (Ok tt, s') /\
    rearranged s s' /\
    (down_hole (kat s) 0 (length (heap s)) idx ->
     ordered (kat s') 0 (length (heap s'))).
Proof.
  induction fuel as [|fuel IH]; intros idx s Hf.
  { exists s. split; [done|]. split; [apply rearranged_refl|].
    intros Hd. eapply down_hole_done; [done|].
    intros c Hc Hlt. unfold child in Hc. lia. }
  rewrite sift_down_loop_unfold by done. cbn zeta.
  destruct (pick_largest_spec (kat s) (length (heap s)) idx)
    as [[-> Hmax]|(Hc & Hl & Hlt & Hmax)].
  { rewrite Nat.eqb_refl. exists s. split; [done|].
    split; [apply rearranged_refl|]. intros Hd. by eapply down_hole_done. }
  set (l := pick_largest _ _ _) in *.
  assert (idx < l)%nat as Hil by (unfold child in Hc; lia).
  destruct (Nat.eqb_spec l idx) as [|Hne]; [lia|]. cbn [negb].
  destruct (lookup_lt_is_Some_2 (heap s) idx ltac:(lia)) as [a Ha].
  destruct (lookup_lt_is_Some_2 (heap s) l Hl) as [b Hb].
  destruct (swap_run s idx l a b Ha Hb) as (h & Hh & Hrun).
  unfold bind. rewrite Hrun.
  pose proof (swap_rearranged s idx l a b h Ha Hb Hh) as Hre.
  set (s1 := State _ _ h _) in *.
  assert (length (heap s1) = length (heap s)) as Hl1
    by (by apply rearranged_length).
  rewrite <- Hl1.
  destruct (IH l s1 ltac:(lia)) as (s' & Hs' & Hre' & Hord).
  exists s'. split; [done|]. split; [by eapply rearranged_trans|].
  intros Hd. apply Hord. rewrite Hl1 in Hd |- *.
  eapply down_hole_ext;
    [|by apply (down_hole_step (kat s) 0%nat (length (heap s)) idx l);
         [lia|..]].
  intros m. by eapply swap_kat.
Qed.

Lemma sift_down_run idx s :
  exists s', _sift_down idx s = (Ok tt, s') /\ rearranged s s' /\
    (down_hole (kat s) 0 (length (heap s)) idx ->
     ordered (kat s') 0 (length (heap s'))).
Proof. unfold _sift_down, bind, gets. by apply sift_down_loop_run. Qed.

End Sift.

(** ** The queue: [insert], [extract_top], [increase_key] *)

Section Methods.

Arguments _sift_down : simpl never.
Arguments _sift_up : simpl never.

Lemma heap_inv_ordered s : heap_inv s <-> ordered (kat s) 0 (length (heap s)).
Proof.
  unfold heap_inv, ordered, kat. split.
  - intros H i c _ Hc Hic.
    destruct (lookup_lt_is_Some_2 (heap s) c Hc) as [tc Htc].
    destruct (lookup_lt_is_Some_2 (heap s) i ltac:(unfold child in Hic; lia))
      as [ti Hti].
    rewrite Htc, Hti. by eapply H.
  - intros H i c ti tc Hic Hti Htc.
    specialize (H i c ltac:(lia) (lookup_lt_Some _ _ _ Htc) Hic).
    by rewrite Hti, Htc in H.
Qed.


(** [insert] never raises: the task joins the heap, whatever its id. *)
Lemma insert_run t s :
  exists s', insert t s = (Ok tt, s') /\
    objs s' = objs s /\ use_max_heap s' = use_max_heap s /\
    heap s' ≡ₚ t :: heap s /\
    (heap_inv s -> heap_inv s') /\
    (top_registered s -> top_registered s') /\
    (pos_sound s -> pos_sound s') /\
    (pos_complete s ->
     (forall t', t' ∈ heap s -> task_id (objs s t') <> task_id (objs s t)) ->
     pos_complete s').
Proof.
  unfold insert, bind, modify, gets, set_pos. cbn.
  rewrite length_app. cbn [length].
  replace (length (heap s) + 1 - 1)%nat with (length (heap s)) by lia.
  set (n := length (heap s)).
  set (s1 := set_position _ _).
  assert (heap s1 = heap s ++ [t]) as Hh1 by done.
  assert (length (heap s1) = S n) as Hl1 by (rewrite Hh1, length_app; cbn; lia).
  destruct (sift_up_run n s1 ltac:(lia)) as (s' & Hrun & Hre & Hord).
  exists s'. split; [done|].
  pose proof Hre as (Ho & Hm & Hp & Htop & Hs & Hc).
  split; [by rewrite Ho|]. split; [by rewrite Hm|].
  split; [rewrite Hp, Hh1; by rewrite Permutation_app_comm|].
  assert (forall m, (m < n)%nat -> kat s1 m = kat s m) as Hk.
  { intros m Hlt. unfold kat. rewrite Hh1, lookup_app_l by done. done. }
  split; [|split; [|split]].
  - rewrite !heap_inv_ordered. intros Hi. apply Hord. rewrite Hl1.
    apply up_hole_append. eapply ordered_ext; [|done]. exact Hk.
  - intros Ht. apply Htop. intros t0. unfold s1. cbn.
    rewrite lookup_insert. case_decide; [eauto|].
    destruct (heap s) as [|t1 h] eqn:Hhs.
    + cbn. intros [= <-]. done.
    + cbn. intros [= <-]. apply Ht. by rewrite Hhs.
  - intros Hso. apply Hs. intros id m. unfold s1. cbn.
    rewrite lookup_insert. case_decide as Hid.
    + intros [= <-]. exists t. split; [|done].
      by rewrite lookup_app_r, Nat.sub_diag.
    + intros Hm'. destruct (Hso _ _ Hm') as (t' & Ht' & Hid').
      exists t'. split; [|done]. by apply lookup_app_l_Some.
  - intros Hco Hfresh. apply Hc. intros m t'. unfold s1. cbn.
    intros Hm'. apply lookup_app_Some in Hm' as [Hm'|[Hge Hm']].
    + rewrite lookup_insert_ne; [by apply Hco|].
      intros Heq. eapply Hfresh; [|done]. by eapply list_elem_of_lookup_2.
    + apply list_lookup_singleton_Some in Hm' as [Hz <-].
      rewrite lookup_insert_eq. f_equal. fold n in Hge, Hz. lia.
Qed.

Lemma extract_top_empty s :
  heap s = [] -> extract_top s = (Raise IndexError, s).
Proof. intros H. unfold extract_top, bind, gets, is_empty. by rewrite H. Qed.

Lemma heap_inv_top_max s top t :
  heap_inv s -> heap s !! 0%nat = Some top -> t ∈ heap s ->
  _key s t <= _key s top.
Proof.
  rewrite heap_inv_ordered. intros Hord Htop Ht.
  apply list_elem_of_lookup_1 in Ht as [i Hi].
  pose proof (ordered_root_max _ _ Hord i (lookup_lt_Some _ _ _ Hi)) as Hle.
  unfold kat in Hle. by rewrite Hi, Htop in Hle.
Qed.

(** [extract_top] on a non-empty queue returns the root and keeps the other
    tasks. *)
Lemma extract_top_run s top :
  heap s !! 0%nat = Some top -> top_registered s ->
  exists s', extract_top s = (Ok top, s') /\
    objs s' = objs s /\ use_max_heap s' = use_max_heap s /\
    top :: heap s' ≡ₚ heap s /\
    (heap_inv s -> heap_inv s') /\
    top_registered s' /\
    (pos_sound s -> pos_sound s') /\
    (pos_complete s -> pos_complete s').
Proof.
  intros Htop Hreg. destruct (Hreg _ Htop) as [p0 Hp0].
  destruct (heap s) as [|top' rest] eqn:Hheap; [done|].
  cbn in Htop. injection Htop as ->.
  unfold extract_top, bind, gets, is_empty, raise. rewrite Hheap. cbn.
  unfold heap_at at 1. rewrite Hheap. cbn.
  destruct rest as [|lst mid _] using rev_ind.
  - (* a single task: the queue becomes empty *)
    unfold heap_pop. rewrite Hheap. cbn.
    unfold del_pos. cbn. rewrite Hp0. cbn.
    eexists. split; [done|]. cbn.
    split; [done|]. split; [done|]. split; [done|].
    split; [|split; [|split]].
    + intros _ i c ti tc _ Hi. by cbn in Hi.
    + intros t Ht. by cbn in Ht.
    + intros Hso id m Hm. cbn in Hm.
      apply lookup_delete_Some in Hm as [Hne Hm].
      destruct (Hso _ _ Hm) as (t & Ht & Hid). rewrite Hheap in Ht.
      destruct m; cbn in Ht; [congruence|done].
    + intros _ i t Hi. by cbn in Hi.
  - (* the last task replaces the root and sinks *)
    unfold heap_pop. rewrite Hheap.
    rewrite (app_comm_cons mid [lst] top), last_snoc, removelast_last.
    cbn. unfold del_pos. cbn. rewrite Hp0. cbn.
    unfold heap_set. cbn. unfold set_pos, modify. cbn.
    set (s2 := set_position _ _).
    assert (heap s2 = lst :: mid) as Hh2 by done.
    destruct (sift_down_run 0 s2) as (s' & Hrun & Hre & Hord).
    rewrite Hrun. cbn. exists s'. split; [done|].
    pose proof Hre as (Ho & Hm & Hp & Hrt & Hs & Hc).
    split; [by rewrite Ho|]. split; [by rewrite Hm|].
    split.
    { rewrite Hp, Hh2. rewrite (Permutation_app_comm mid). apply perm_skip.
      done. }
    assert (forall m, (0 < m)%nat -> (m < length (heap s2))%nat ->
              kat s2 m = kat s m) as Hk.
    { intros m Hm0 Hm1. unfold kat. rewrite Hh2, Hheap.
      destruct m as [|m]; [lia|]. rewrite !lookup_cons.
      rewrite Hh2 in Hm1. cbn in Hm1. rewrite lookup_app_l by lia. done. }
    split; [|split; [|split]].
    + rewrite !heap_inv_ordered. intros Hi. apply Hord.
      apply down_hole_start. intros i c Hi1 Hc1 Hic.
      rewrite !Hk; try (unfold child in Hic; lia).
      apply Hi; [lia| |done].
      rewrite Hheap, Hh2 in *. cbn in *. rewrite length_app. cbn. lia.
    + apply Hrt. intros t. rewrite Hh2. cbn. intros [= <-].
      rewrite lookup_insert_eq. eauto.
    + intros Hso. apply Hs. intros id m. unfold s2. cbn.
      rewrite lookup_insert. case_decide as Hid.
      { intros [= <-]. exists lst. done. }
      intros Hm'. apply lookup_delete_Some in Hm' as [Hne Hm'].
      destruct (Hso _ _ Hm') as (t & Ht & Hidt). rewrite Hheap in Ht.
      exists t. split; [|done].
      destruct m as [|m]; simpl in Ht; [congruence|]. simpl.
      apply lookup_app_Some in Ht as [Ht|[_ Ht]]; [done|].
      apply list_lookup_singleton_Some in Ht as [_ <-]. congruence.
    + intros Hco. apply Hc. intros m t. unfold s2. cbn.
      destruct m as [|m]; simpl.
      { intros [= <-]. by rewrite lookup_insert_eq. }
      intros Ht.
      assert (heap s !! S m = Some t) as Hst.
      { rewrite Hheap. simpl. by apply lookup_app_l_Some. }
      pose proof (Hco _ _ Hst) as Hpt.
      assert (heap s !! S (length mid) = Some lst) as Hsl.
      { rewrite Hheap. simpl. by rewrite lookup_app_r, Nat.sub_diag. }
      pose proof (Hco _ _ Hsl) as Hpl.
      assert (heap s !! 0%nat = Some top) as Hs0 by by rewrite Hheap.
      pose proof (Hco _ _ Hs0) as Hp0'.
      apply lookup_lt_Some in Ht.
      rewrite lookup_insert_ne by (intros Heq; rewrite Heq in Hpl; simplify_eq; lia).
      rewrite lookup_delete_ne by (intros Heq; rewrite Heq in Hp0'; simplify_eq).
      done.
Qed.

Lemma increase_key_absent id p s :
  position s !! id = None -> increase_key id p s = (Raise KeyError, s).
Proof. intros H. unfold increase_key, bind, gets. by rewrite H. Qed.

Lemma increase_key_stale id p s idx :
  position s !! id = Some idx -> heap s !! idx = None ->
  increase_key id p s = (Raise IndexError, s).
Proof.
  intros H Hi. unfold increase_key, bind, gets, heap_at. by rewrite H, Hi.
Qed.

(** [increase_key] on a registered task writes the new priority into the
    task object and re-sifts from its slot. *)
Lemma increase_key_run id p s idx t :
  position s !! id = Some idx -> heap s !! idx = Some t ->
  exists s', increase_key id p s = (Ok tt, s') /\
    use_max_heap s' = use_max_heap s /\
    (forall l, task_id (objs s' l) = task_id (objs s l)) /\
    (forall l, l <> t -> objs s' l = objs s l) /\
    priority (objs s' t) = p /\
    heap s' ≡ₚ heap s /\
    (NoDup (heap s) -> heap_inv s -> heap_inv s') /\
    (top_registered s -> top_registered s') /\
    (pos_sound s -> pos_sound s') /\
    (pos_complete s -> pos_complete s').
Proof.
  intros Hpos Hidx. pose proof (lookup_lt_Some _ _ _ Hidx) as Hlt.
  unfold increase_key, bind at 1, gets at 1. rewrite Hpos.
  unfold bind at 1. rewrite (heap_at_Some _ _ _ Hidx).
  unfold bind at 1, gets at 1. unfold bind at 1, set_priority, modify.
  set (s1 := set_objs _ s).
  unfold bind at 1, gets at 1.
  assert (heap s1 = heap s) as Hh1 by done.
  assert (forall l, task_id (objs s1 l) = task_id (objs s l)) as Hid1.
  { intros l. unfold s1. cbn. by case_decide. }
  assert (forall l, l <> t -> objs s1 l = objs s l) as Hoff1.
  { intros l Hl. unfold s1. cbn. by rewrite decide_False. }
  assert (priority (objs s1 t) = p) as Hp1.
  { unfold s1. cbn. by rewrite decide_True. }
  assert (NoDup (heap s) -> forall m, m <> idx -> kat s1 m = kat s m) as Hk.
  { intros Hnd m Hm. unfold kat. rewrite Hh1.
    destruct (heap s !! m) as [t'|] eqn:Ht'; [|done].
    unfold _key. rewrite Hoff1; [done|].
    intros ->. apply Hm. by eapply NoDup_lookup. }
  assert (kat s1 idx = if use_max_heap s then p else - p) as Hk1.
  { unfold kat. rewrite Hh1, Hidx. unfold _key. by rewrite Hp1. }
  assert (kat s idx = if use_max_heap s
                      then priority (objs s t) else - priority (objs s t)) as Hk0.
  { unfold kat. by rewrite Hidx. }
  assert (exists s',
    (if use_max_heap s1
     then if p >=? priority (objs s t) then _sift_up idx else _sift_down idx
     else if p >=? priority (objs s t) then _sift_down idx else _sift_up idx)
      s1 = (Ok tt, s') /\ rearranged s1 s' /\
    (NoDup (heap s) -> heap_inv s -> heap_inv s')) as (s' & Hrun & Hre & Hinv).
  { change (use_max_heap s1) with (use_max_heap s).
    rewrite Z.geb_leb.
    destruct (sift_up_run idx s1 ltac:(by rewrite Hh1)) as (su & Hu & Hru & Hou).
    destruct (sift_down_run idx s1) as (sd & Hd & Hrd & Hod).
    assert (NoDup (heap s) -> heap_inv s -> kat s idx <= kat s1 idx ->
            heap_inv su) as Hup.
    { intros Hnd Hi Hle. apply heap_inv_ordered, Hou. rewrite Hh1.
      apply heap_inv_ordered in Hi. by eapply up_hole_raise; [|apply Hk|]. }
    assert (NoDup (heap s) -> heap_inv s -> kat s1 idx <= kat s idx ->
            heap_inv sd) as Hdown.
    { intros Hnd Hi Hle. apply heap_inv_ordered, Hod. rewrite Hh1.
      apply heap_inv_ordered in Hi. by eapply down_hole_lower; [|apply Hk|]. }
    rewrite Hk0, Hk1 in Hup, Hdown.
    destruct (use_max_heap s), (Z.leb_spec (priority (objs s t)) p);
      [exists su|exists sd|exists sd|exists su];
      (split; [done|]); (split; [done|]); intros Hnd Hi;
      [apply Hup|apply Hdown|apply Hdown|apply Hup]; try done; lia. }
  exists s'. rewrite Hrun. split; [done|].
  pose proof Hre as (Ho & Hm & Hp & Hrt & Hs & Hc).
  split; [by rewrite Hm|]. split; [intros l; by rewrite Ho|].
  split; [intros l Hl; rewrite Ho; by apply Hoff1|].
  split; [by rewrite Ho|]. split; [by rewrite Hp|]. split; [done|].
  split; [|split].
  - intros Ht. apply Hrt. intros t0 Ht0. rewrite Hid1. by apply Ht.
  - intros Hso. apply Hs. intros id' m Hm'.
    destruct (Hso _ _ Hm') as (t' & Ht' & Hid'). exists t'.
    by rewrite Hid1.
  - intros Hco. apply Hc. intros m t' Ht'. rewrite Hid1. by apply Hco.
Qed.

End Methods.

(** ** The queue: invariants along any sequence of calls *)

Section Invariants.

Lemma pos_complete_top_registered s : pos_complete s -> top_registered s.
Proof. intros Hc t Ht. rewrite (Hc _ _ Ht). eauto. Qed.

Lemma init_heap_inv o m : heap_inv (init o m).
Proof. intros i c ti tc _ Hi. by cbn in Hi. Qed.

Lemma init_top_registered o m : top_registered (init o m).
Proof. intros t Ht. by cbn in Ht. Qed.

Lemma run_call_order_inv c s :
  order_inv s ->
  match c with Insert t => t ∉ heap s | _ => True end ->
  order_inv (run_call c s).
Proof.
  intros (Hi & Hnd & Ht) Hfresh.
  assert (forall id p, order_inv (snd (increase_key id p s))) as Hinc.
  { intros id p. destruct (position s !! id) as [idx|] eqn:Hpos;
      [|by rewrite increase_key_absent].
    destruct (heap s !! idx) as [t|] eqn:Hidx;
      [|by erewrite increase_key_stale].
    destruct (increase_key_run id p s idx t Hpos Hidx)
      as (s' & -> & _ & _ & _ & _ & Hp & Hi' & Ht' & _).
    cbn. split; [auto|]. split; [by rewrite Hp|auto]. }
  destruct c as [t| |id p|id p]; cbn [run_call]; [| |apply Hinc|apply Hinc].
  - destruct (insert_run t s) as (s' & -> & _ & _ & Hp & Hi' & Ht' & _).
    cbn. split; [auto|]. split; [|auto].
    rewrite Hp. by apply NoDup_cons.
  - destruct (heap s) as [|top rest] eqn:Hh.
    { rewrite extract_top_empty by done. cbn.
      split; [done|]. split; [by rewrite Hh|done]. }
    destruct (extract_top_run s top) as (s' & -> & _ & _ & Hp & Hi' & Ht' & _).
    { by rewrite Hh. } { done. }
    cbn. split; [auto|]. split; [|done].
    rewrite Hh in Hp. rewrite <- Hp in Hnd. by apply NoDup_cons in Hnd as [_ ?].
Qed.

Lemma run_calls_order_inv cs : forall s,
  order_inv s -> inserts_fresh cs s = true -> order_inv (run_calls cs s).
Proof.
  induction cs as [|c cs IH]; intros s Hinv Hf; [done|].
  cbn in Hf. apply andb_true_iff in Hf as [Hc Hf].
  cbn. apply IH; [|done]. apply run_call_order_inv; [done|].
  destruct c; try done. by apply bool_decide_eq_true in Hc.
Qed.

(** [pos_sound] and [pos_complete] make the position map a bijection
    between the resident ids and the slots of the heap. *)
Lemma pos_size s :
  pos_sound s -> pos_complete s -> size (position s) = length (heap s).
Proof.
  intros Hso Hco.
  set (ids := (fun t => task_id (objs s t)) <$> heap s).
  assert (NoDup ids) as Hnd.
  { apply NoDup_alt. intros i j id Hi Hj. unfold ids in Hi, Hj.
    rewrite list_lookup_fmap in Hi, Hj.
    destruct (heap s !! i) as [ti|] eqn:Hti; [|done].
    destruct (heap s !! j) as [tj|] eqn:Htj; [|done].
    cbn in Hi, Hj. apply Hco in Hti, Htj. congruence. }
  assert (dom (position s) = list_to_set ids) as Hdom.
  { apply set_eq. intros id. rewrite elem_of_dom, elem_of_list_to_set.
    unfold ids. rewrite list_elem_of_fmap. split.
    - intros [i Hi]. destruct (Hso _ _ Hi) as (t & Ht & Hid).
      exists t. split; [done|]. by eapply list_elem_of_lookup_2.
    - intros (t & -> & Ht). apply list_elem_of_lookup_1 in Ht as [i Hi].
      rewrite (Hco _ _ Hi). eauto. }
  rewrite <- size_dom, Hdom, size_list_to_set by done.
  unfold ids. by rewrite length_fmap.
Qed.

Section Position.
Variable o : store.

Local Abbreviation id_of := (id_of o).
Local Abbreviation position_inv := (position_inv o).

Lemma run_call_position_inv c s :
  position_inv s ->
  match c with
  | Insert t => forall t', t' ∈ heap s -> id_of t' <> id_of t
  | _ => True
  end ->
  position_inv (run_call c s) /\
  forall t', t' ∈ heap (run_call c s) ->
    t' ∈ heap s \/ match c with Insert t => t' = t | _ => False end.
Proof.
  intros Hinv Hfresh. pose proof Hinv as (Hso & Hco & Hid).
  assert (forall id p, position_inv (snd (increase_key id p s)) /\
            forall t', t' ∈ heap (snd (increase_key id p s)) ->
              t' ∈ heap s \/ False) as Hinc.
  { intros id p. destruct (position s !! id) as [idx|] eqn:Hpos;
      [|rewrite increase_key_absent by done; cbn; by auto].
    destruct (heap s !! idx) as [t|] eqn:Hidx;
      [|erewrite increase_key_stale by done; cbn; by auto].
    destruct (increase_key_run id p s idx t Hpos Hidx)
      as (s' & -> & _ & Hid' & _ & _ & Hp & _ & _ & Hso' & Hco').
    cbn. split; [|intros t'; rewrite Hp; auto].
    split; [auto|]. split; [auto|]. intros l. by rewrite Hid'. }
  destruct c as [t| |id p|id p]; cbn [run_call]; [| |apply Hinc|apply Hinc].
  - destruct (insert_run t s) as (s' & -> & Ho & _ & Hp & _ & _ & Hso' & Hco').
    cbn. split.
    + split; [auto|]. split; [|intros l; by rewrite Ho].
      apply Hco'; [done|]. intros t' Ht'. rewrite !Hid. by apply Hfresh.
    + intros t'. rewrite Hp, elem_of_cons. tauto.
  - destruct (heap s) as [|top rest] eqn:Hh.
    { rewrite extract_top_empty by done. cbn.
      split; [done|]. intros t' Ht'. left. by rewrite <- Hh. }
    destruct (extract_top_run s top)
      as (s' & -> & Ho & _ & Hp & _ & _ & Hso' & Hco').
    { by rewrite Hh. } { by apply pos_complete_top_registered. }
    cbn. split.
    + split; [auto|]. split; [auto|]. intros l. by rewrite Ho.
    + intros t' Ht'. left. rewrite <- Hh, <- Hp. by right.
Qed.

Lemma run_calls_position_inv cs : forall s,
  position_inv s ->
  NoDup (id_of <$> inserted cs) ->
  (forall t, t ∈ heap s -> id_of t ∉ id_of <$> inserted cs) ->
  position_inv (run_calls cs s).
Proof.
  induction cs as [|c cs IH]; intros s Hinv Hnd Hnew; [done|].
  cbn.
  assert (match c with
          | Insert t => forall t', t' ∈ heap s -> id_of t' <> id_of t
          | _ => True
          end) as Hfresh.
  { destruct c as [t| | |]; try done. intros t' Ht' Heq.
    apply (Hnew t' Ht'). cbn. rewrite Heq. by left. }
  destruct (run_call_position_inv c s Hinv Hfresh) as [Hinv' Hsub].
  apply IH; [done| |].
  - destruct c; cbn in Hnd; try done. by apply NoDup_cons in Hnd as [_ ?].
  - intros t Ht. destruct (Hsub t Ht) as [Hold|Hc].
    + specialize (Hnew t Hold). destruct c; cbn in Hnew; try done.
      by apply not_elem_of_cons in Hnew as [_ ?].
    + destruct c as [t0| | |]; try done. subst t0.
      cbn in Hnd. by apply NoDup_cons in Hnd as [? _].
Qed.

End Position.

End Invariants.

(** ** The queue: statements *)

(** C2, as stated, fails when one [Task] object is resident twice: after
    [insert(x); insert(y); insert(x); increase_key("x", 0)] with priorities
    [x = 5], [y = 3], the root [x] has key 0 and its child [y] has key 3. *)
Lemma heap_order_alias_counterexample :
  ~ heap_inv (run_calls alias_calls (init alias_store true)).
Proof.
  intros H. specialize (H 0%nat 1%nat 0%nat 1%nat).
  assert (3 <= 0) as Habs; [|lia].
  apply H; [by left|by vm_compute|by vm_compute].
Qed.

(** C2 (amended): starting from the empty queue, after any sequence of
    [insert], [extract_top], [increase_key] and [decrease_key] calls in which
    no [Task] object is inserted while the heap already holds it, every slot
    of the heap has an effective key at least that of each of its existing
    children. *)
Theorem heap_order_preserved (o : store) (m : bool) (cs : list call) :
  inserts_fresh cs (init o m) = true ->
  heap_inv (run_calls cs (init o m)).
Proof.
  intros Hf. apply run_calls_order_inv; [|done].
  split; [apply init_heap_inv|]. split; [constructor|apply init_top_registered].
Qed.

Lemma heap_order_preserved_witness :
  let cs := [Insert 0%nat; Insert 1%nat; Insert 2%nat; IncreaseKey "C" 10;
             ExtractTop; DecreaseKey "B" 0; IncreaseKey "Z" 1; ExtractTop] in
  inserts_fresh cs (init abc_store false) = true /\
  heap_inv (run_calls cs (init abc_store false)).
Proof.
  split; [by vm_compute|]. apply heap_order_preserved. by vm_compute.
Defined.

(** C3: starting from the empty queue, after any sequence of [insert],
    [extract_top], [increase_key] and [decrease_key] calls whose inserted
    tasks have pairwise distinct ids, every entry [position[id] = i] has
    [heap[i].task_id == id], every resident task is registered at its slot,
    and the position map has as many entries as the heap has tasks. *)
Theorem position_map_consistent (o : store) (m : bool) (cs : list call) :
  NoDup (id_of o <$> inserted cs) ->
  pos_inv (run_calls cs (init o m)).
Proof.
  intros Hnd.
  destruct (run_calls_position_inv o cs (init o m)) as (Hso & Hco & _).
  - split; [|split; [|done]].
    + intros id i Hi. by cbn in Hi.
    + intros i t Hi. by cbn in Hi.
  - done.
  - intros t Ht. by apply elem_of_nil in Ht.
  - split; [done|]. split; [done|]. by apply pos_size.
Qed.

Lemma position_map_consistent_witness :
  let cs := [Insert 0%nat; Insert 1%nat; ExtractTop; Insert 2%nat;
             IncreaseKey "C" 10; DecreaseKey "A" 0; ExtractTop] in
  NoDup (id_of abc_store <$> inserted cs) /\
  pos_inv (run_calls cs (init abc_store true)).
Proof.
  assert (NoDup (id_of abc_store <$> [0; 1; 2]%nat)) as Hnd.
  { apply (bool_decide_unpack _). by vm_compute. }
  split; [exact Hnd|]. apply position_map_consistent. exact Hnd.
Defined.

(** C5: on the max-mode queue built by inserting [A:3], [B:5], [C:1],
    after [increase_key("C", 10)] the next [extract_top] returns the task
    [C]. *)
Theorem update_priority_example :
  fst ((insert 0%nat ;; insert 1%nat ;; insert 2%nat ;;
        increase_key "C" 10 ;; extract_top) (init abc_store true)) = Ok 2%nat /\
  task_id (abc_store 2%nat) = "C".
Proof. split; by vm_compute. Qed.

(** C8, as stated, fails: with a task of id ["x"] resident, inserting
    another task of id ["x"] returns normally. *)
Lemma insert_duplicate_id_counterexample :
  let s := snd (insert 0%nat (init twin_store true)) in
  (exists t', t' ∈ heap s /\ task_id (objs s t') = task_id (objs s 1%nat)) /\
  fst (insert 1%nat s) = Ok tt.
Proof.
  split; [|by vm_compute]. exists 0%nat. split; [|by vm_compute].
  apply list_elem_of_lookup_2 with 0%nat. by vm_compute.
Qed.

(** C8 (amended): [insert] has no duplicate-id check; when a task with the
    same id is already resident the call still returns normally, and the
    heap then holds the new task besides all the tasks it held. *)
Theorem insert_duplicate_id_accepted (s : state) (t : loc) :
  (exists t', t' ∈ heap s /\ task_id (objs s t') = task_id (objs s t)) ->
  fst (insert t s) = Ok tt /\ heap (snd (insert t s)) ≡ₚ t :: heap s.
Proof.
  intros _. destruct (insert_run t s) as (s' & -> & _ & _ & Hp & _). done.
Qed.

Lemma insert_duplicate_id_accepted_witness :
  let s := snd (insert 0%nat (init twin_store true)) in
  fst (insert 1%nat s) = Ok tt /\ heap (snd (insert 1%nat s)) ≡ₚ 1%nat :: heap s.
Proof.
  apply insert_duplicate_id_accepted. exists 0%nat.
  split; [|by vm_compute]. apply list_elem_of_lookup_2 with 0%nat. by vm_compute.
Defined.

Section LoadDrain.

Lemma same_objs_key s s' t :
  objs s' = objs s -> use_max_heap s' = use_max_heap s -> _key s' t = _key s t.
Proof. intros Ho Hm. unfold _key. by rewrite Ho, Hm. Qed.

Lemma load_run tasks : forall s,
  heap_inv s -> top_registered s ->
  exists s', load tasks s = (Ok tt, s') /\
    objs s' = objs s /\ use_max_heap s' = use_max_heap s /\
    heap s' ≡ₚ tasks ++ heap s /\ heap_inv s' /\ top_registered s'.
Proof.
  induction tasks as [|t tasks IH]; intros s Hi Ht.
  { exists s. by repeat split. }
  destruct (insert_run t s) as (s1 & Hrun & Ho & Hm & Hp & Hi1 & Ht1 & _).
  destruct (IH s1 (Hi1 Hi) (Ht1 Ht)) as (s' & Hrun' & Ho' & Hm' & Hp' & ? & ?).
  exists s'. cbn [load]. unfold bind. rewrite Hrun.
  split; [done|]. split; [congruence|]. split; [congruence|].
  split; [|done]. rewrite Hp', Hp. cbn. by rewrite Permutation_middle.
Qed.

Lemma drain_run n : forall s,
  heap_inv s -> top_registered s -> length (heap s) = n ->
  exists out s', drain n s = (Ok out, s') /\ out ≡ₚ heap s /\
    Sorted Z.ge (_key s <$> out).
Proof.
  induction n as [|n IH]; intros s Hi Ht Hlen.
  { exists [], s. apply nil_length_inv in Hlen. rewrite Hlen.
    split; [done|]. split; [done|constructor]. }
  destruct (heap s) as [|top rest] eqn:Hh; [done|].
  destruct (extract_top_run s top) as (s1 & Hrun & Ho & Hm & Hp & Hi1 & Ht1 & _).
  { by rewrite Hh. } { done. }
  assert (length (heap s1) = n) as Hlen1.
  { apply Permutation_length in Hp. rewrite Hh in Hp. cbn in Hp, Hlen. lia. }
  destruct (IH s1 (Hi1 Hi) Ht1 Hlen1) as (out & s' & Hrun' & Hp' & Hsorted).
  exists (top :: out), s'. cbn [drain]. unfold bind. rewrite Hrun, Hrun'.
  split; [done|]. split; [by rewrite Hp', <- Hh, <- Hp|].
  rewrite fmap_cons. constructor.
  - erewrite list_fmap_ext; [exact Hsorted|].
    intros _ t _. symmetry. by apply same_objs_key.
  - destruct out as [|t out]; constructor.
    apply Z.le_ge. apply heap_inv_top_max; [done|by rewrite Hh|].
    rewrite <- Hp. right. rewrite <- Hp'. by left.
Qed.

End LoadDrain.

(** C1: a queue, in max or in min mode, loaded with [N] tasks by [insert]
    and drained by [N] calls to [extract_top] returns all [N] tasks, and the
    sequence of their effective keys is non-increasing. *)
Theorem extraction_order (o : store) (m : bool) (tasks : list loc) :
  exists out s',
    (load tasks ;; drain (length tasks)) (init o m) = (Ok out, s') /\
    out ≡ₚ tasks /\
    Sorted Z.ge (_key (init o m) <$> out).
Proof.
  destruct (load_run tasks (init o m) (init_heap_inv o m)
              (init_top_registered o m))
    as (s1 & Hrun & Ho & Hm & Hp & Hi & Ht).
  cbn in Hp. rewrite app_nil_r in Hp.
  destruct (drain_run (length tasks) s1 Hi Ht) as (out & s' & Hrun' & Hp' & Hs).
  { by rewrite Hp. }
  exists out, s'. unfold bind. rewrite Hrun.
  split; [done|]. split; [by rewrite Hp', Hp|].
  erewrite list_fmap_ext; [exact Hs|].
  intros _ t _. symmetry. by apply same_objs_key.
Qed.

(** ** The scheduler simulation *)

Section Simulation.

Lemma sorted_insert_perm {A} (key : A -> Z) x (l : list A) :
  sorted_insert key x l ≡ₚ x :: l.
Proof.
  induction l as [|y l IH]; [done|]. cbn.
  destruct (key x <=? key y); [done|]. rewrite IH. apply perm_swap.
Qed.

Lemma sorted_perm {A} (key : A -> Z) (l : list A) : sorted key l ≡ₚ l.
Proof.
  induction l as [|x l IH]; [done|]. cbn.
  by rewrite sorted_insert_perm, IH.
Qed.

Lemma admission_loop_run rest : forall time i s,
  top_registered s ->
  exists k s', admission_loop rest time i s = (Ok (i + k)%nat, s') /\
    (k <= length rest)%nat /\
    objs s' = objs s /\ use_max_heap s' = use_max_heap s /\
    heap s' ≡ₚ take k rest ++ heap s /\
    top_registered s' /\
    (forall p, rest !! k = Some p -> time < py_or (arrival_time (objs s p)) 0) /\
    (k = 0%nat -> s' = s).
Proof.
  induction rest as [|t rest IH]; intros time i s Ht.
  { exists 0%nat, s. cbn. rewrite Nat.add_0_r. by repeat split. }
  cbn [admission_loop]. unfold bind at 1, gets at 1.
  destruct (Z.leb_spec (py_or (arrival_time (objs s t)) 0) time) as [Hle|Hgt].
  - destruct (insert_run t s) as (s1 & Hrun & Ho & Hm & Hp & _ & Ht1 & _).
    destruct (IH time (S i) s1 (Ht1 Ht))
      as (k & s' & Hrun' & Hk & Ho' & Hm' & Hp' & Ht' & Hstop & _).
    exists (S k), s'. unfold bind. rewrite Hrun, Hrun'.
    replace (i + S k)%nat with (S i + k)%nat by lia.
    split; [done|]. split; [cbn; lia|]. split; [congruence|].
    split; [congruence|]. split.
    { rewrite Hp', Hp. cbn. by rewrite Permutation_middle. }
    split; [done|]. split; [|done].
    intros p Hp0. cbn in Hp0. rewrite <- Ho. by apply Hstop.
  - exists 0%nat, s. unfold ret. rewrite Nat.add_0_r.
    split; [done|]. split; [cbn; lia|]. repeat split; try done.
    intros p [= <-]. done.
Qed.

Lemma sim_cond_false pending v s :
  sim_cond pending v s = false <->
  (length pending <= cur v)%nat /\ heap s = [].
Proof.
  unfold sim_cond, is_empty. rewrite orb_false_iff, negb_false_iff.
  rewrite Nat.ltb_ge, Nat.eqb_eq. split; intros [? ?]; split; try done.
  - by apply nil_length_inv.
  - match goal with H : heap s = [] |- _ => by rewrite H end.
Qed.

Lemma strongly_sorted_snoc (l : list Z) x :
  StronglySorted Z.lt l -> Forall (fun y => y < x) l ->
  StronglySorted Z.lt (l ++ [x]).
Proof.
  induction 1 as [|y l Hs IH Hy]; intros Hall; cbn.
  { repeat constructor. }
  apply Forall_cons in Hall as [Hyx Hall].
  constructor; [by apply IH|].
  apply Forall_app. split; [done|by constructor].
Qed.

(** One iteration from a state that satisfies the invariant. *)
Lemma sim_body_run o pending v s :
  sim_inv o pending v s -> sim_cond pending v s = true ->
  exists v' s', sim_body pending v s = (Ok v', s') /\
    sim_inv o pending v' s' /\
    (sim_measure pending v' s' < sim_measure pending v s)%nat /\
    ((exists t, (cur v <= cur v')%nat /\
                timeline v' = timeline v ++ [(time_now v, t)] /\
                time_now v' = time_now v + 1) \/
     (exists p, time_now v < time_now v' /\ pending !! cur v' = Some p /\
                arrival_time (o p) = Some (time_now v') /\
                cur v' = cur v /\ timeline v' = timeline v /\ s' = s)).
Proof.
  intros (Ho & Htime & Htop & Hcur & Hperm & Hall & Hsorted) Hcond.
  unfold sim_body, admission. unfold bind at 1.
  destruct (admission_loop_run (drop (cur v) pending) (time_now v) (cur v) s Htop)
    as (k & s1 & Hrun & Hk & Ho1 & Hm1 & Hp1 & Ht1 & Hstop & Hk0).
  rewrite Hrun. unfold bind at 1, gets at 1.
  rewrite length_drop in Hk.
  destruct (is_empty s1) eqn:Hempty.
  - (* nothing to run: skip to the next arrival *)
    unfold is_empty in Hempty. apply Nat.eqb_eq, nil_length_inv in Hempty.
    rewrite Hempty in Hp1. symmetry in Hp1.
    apply Permutation_nil_r, app_eq_nil in Hp1 as [Htake Hheap].
    assert (k = 0%nat) as ->.
    { apply (f_equal length) in Htake.
      rewrite length_take, length_drop in Htake. cbn in Htake. lia. }
    rewrite (Hk0 eq_refl) in *. clear Hk0 Hrun s1 Hempty Ho1 Hm1 Ht1.
    rewrite Nat.add_0_r.
    assert (cur v < length pending)%nat as Hlt.
    { unfold sim_cond, is_empty in Hcond. rewrite Hheap in Hcond. cbn in Hcond.
      rewrite orb_false_r in Hcond. by apply Nat.ltb_lt in Hcond. }
    destruct (lookup_lt_is_Some_2 pending (cur v) Hlt) as [p Hp].
    specialize (Hstop p). rewrite lookup_drop, Nat.add_0_r in Hstop.
    specialize (Hstop Hp). rewrite Hp. unfold bind, gets, ret.
    destruct (arrival_time (objs s p)) as [a|] eqn:Harr; cbn in Hstop; [|lia].
    assert (time_now v < a /\ a <> 0) as [Hgt Hne].
    { revert Hstop. destruct (Z.eqb_spec a 0); intros; lia. }
    clear Hstop.
    assert (py_or (Some a) (time_now v) = a) as Hpy.
    { unfold py_or. by destruct (Z.eqb_spec a 0). }
    rewrite Hpy.
    eexists _, s. split; [done|]. split; [|split].
    + unfold sim_inv. cbn.
      split; [done|]. split; [lia|]. split; [done|]. split; [lia|].
      split; [done|]. split; [|done].
      eapply Forall_impl; [exact Hall|]. cbn. intros e He. lia.
    + unfold sim_measure, needs_jump, is_empty. cbn. rewrite Hheap, Hp, Harr.
      cbn. destruct (Z.eqb_spec a 0); [done|].
      destruct (Z.leb_spec a a); [|lia].
      destruct (Z.leb_spec a (time_now v)); [lia|]. cbn. lia.
    + right. exists p. cbn. rewrite <- Ho. by repeat split.
  - (* run the best task *)
    unfold is_empty in Hempty. apply Nat.eqb_neq in Hempty.
    destruct (heap s1) as [|top rest] eqn:Hh1; [done|].
    destruct (extract_top_run s1 top)
      as (s2 & Hrun2 & Ho2 & Hm2 & Hp2 & _ & Ht2 & _).
    { by rewrite Hh1. } { done. }
    unfold bind, ret. rewrite Hrun2.
    eexists _, s2. split; [done|]. split; [|split].
    + unfold sim_inv. cbn. split; [congruence|]. split; [lia|]. split; [done|].
      split; [lia|]. split; [|split].
      * rewrite fmap_app. cbn. rewrite <- app_assoc. cbn.
        rewrite Hp2, Hh1, Hp1.
        rewrite (Permutation_app_comm (take k _)), app_assoc, Hperm.
        by rewrite take_take_drop.
      * apply Forall_app. split.
        -- eapply Forall_impl; [exact Hall|]. cbn. intros e He. lia.
        -- constructor; [cbn; lia|constructor].
      * rewrite fmap_app. cbn. apply strongly_sorted_snoc; [done|].
        by apply Forall_fmap.
    + unfold sim_measure. cbn.
      apply Permutation_length in Hp1, Hp2.
      rewrite Hh1 in Hp2. rewrite length_app, length_take, length_drop in Hp1.
      cbn in Hp1, Hp2.
      destruct (needs_jump _ _ s2), (needs_jump pending v s); lia.
    + left. exists top. cbn. split; [lia|done].
Qed.

Lemma sim_inv_init o m pending : sim_inv o pending (Sim 0 0 []) (init o m).
Proof.
  unfold sim_inv. cbn. split; [done|]. split; [done|].
  split; [apply init_top_registered|]. split; [lia|].
  rewrite take_0. repeat split; constructor.
Qed.

Lemma sim_reach_inv o m pending v s :
  sim_reach o m pending v s -> sim_inv o pending v s.
Proof.
  induction 1 as [|v s v' s' _ IH Hcond Hbody]; [apply sim_inv_init|].
  destruct (sim_body_run o pending v s IH Hcond) as (v1 & s1 & Hrun & Hinv & _).
  rewrite Hrun in Hbody. by injection Hbody as <- <-.
Qed.

(** With fuel beyond the measure the loop runs to its end. *)
Lemma sim_loop_run o pending fuel : forall v s,
  sim_inv o pending v s -> (sim_measure pending v s < fuel)%nat ->
  exists tl, sim_loop fuel pending v s = Some (Ok tl) /\
    tl.*2 ≡ₚ pending /\ StronglySorted Z.lt tl.*1.
Proof.
  induction fuel as [|fuel IH]; intros v s Hinv Hm; [lia|].
  cbn [sim_loop]. destruct (sim_cond pending v s) eqn:Hcond.
  - destruct (sim_body_run o pending v s Hinv Hcond)
      as (v' & s' & -> & Hinv' & Hlt & _).
    apply IH; [done|lia].
  - exists (timeline v). split; [done|].
    apply sim_cond_false in Hcond as [Hcur Hheap].
    destruct Hinv as (_ & _ & _ & _ & Hperm & _ & Hsorted).
    rewrite Hheap, app_nil_r, take_ge in Hperm by done. done.
Qed.

(** More fuel does not change an answer. *)
Lemma sim_loop_mono pending fuel : forall fuel' v s r,
  (fuel <= fuel')%nat ->
  sim_loop fuel pending v s = Some r -> sim_loop fuel' pending v s = Some r.
Proof.
  induction fuel as [|fuel IH]; intros fuel' v s r Hle; [done|].
  destruct fuel' as [|fuel']; [lia|]. cbn [sim_loop].
  destruct (sim_cond pending v s); [|done].
  destruct (sim_body pending v s) as [[v'|e] s']; [|done].
  apply IH. lia.
Qed.

Lemma simulate_scheduler_fuel_run o tasks m :
  exists tl,
    simulate_scheduler_fuel (2 * length tasks + 2) o tasks m = Some (Ok tl) /\
    tl.*2 ≡ₚ tasks /\ StronglySorted Z.lt tl.*1.
Proof.
  unfold simulate_scheduler_fuel. cbn zeta.
  set (pending := sorted (arrival_key o) tasks).
  destruct (sim_loop_run o pending (2 * length tasks + 2) (Sim 0 0 [])
              (init o m) (sim_inv_init o m pending)) as (tl & Hrun & Hp & Hs).
  { unfold sim_measure. cbn [cur heap init length].
    replace (length pending) with (length tasks)
      by (symmetry; apply Permutation_length, sorted_perm).
    destruct (needs_jump _ _ _); lia. }
  exists tl. split; [done|]. split; [|done].
  rewrite Hp. apply sorted_perm.
Qed.

(** [2 * len(tasks) + 2] evaluations of the loop condition suffice, and
    more change nothing. *)
Lemma simulate_scheduler_fuel_enough o tasks m fuel :
  (2 * length tasks + 2 <= fuel)%nat ->
  simulate_scheduler_fuel fuel o tasks m = simulate_scheduler o tasks m.
Proof.
  intros Hle. unfold simulate_scheduler.
  destruct (simulate_scheduler_fuel_run o tasks m) as (tl & Hrun & _).
  rewrite Hrun. unfold simulate_scheduler_fuel in *.
  by eapply sim_loop_mono.
Qed.

End Simulation.

(** ** The scheduler simulation: statements *)

(** C4: for [A(priority=3, arrival=0)], [B(5, 1)], [C(1, 2)], [D(4, 0)] in
    max-heap mode, [simulate_scheduler] returns the timeline
    [[(0, D), (1, B), (2, A), (3, C)]]. *)
Theorem scheduler_scenario :
  exists tl,
    simulate_scheduler main_store [0; 1; 2; 3]%nat true = Some (Ok tl) /\
    tl = [(0, 3%nat); (1, 1%nat); (2, 0%nat); (3, 2%nat)] /\
    (fun e => (e.1, task_id (main_store e.2))) <$> tl =
      [(0, "D"); (1, "B"); (2, "A"); (3, "C")].
Proof. eexists. split; [by vm_compute|]. split; by vm_compute. Qed.

(** C6: for every task list the simulation loop ends and returns a timeline,
    within [2 * len(tasks) + 2] evaluations of its condition; every
    iteration admits at least one pending task, or appends exactly one
    extracted task to the timeline, or strictly advances the clock to the
    arrival time of the next pending task; and the loop condition is false
    exactly when the pending list is exhausted and the queue is empty. *)
Theorem simulation_terminates (o : store) (tasks : list loc) (m : bool) :
  let pending := sorted (arrival_key o) tasks in
  (exists tl, forall fuel, (2 * length tasks + 2 <= fuel)%nat ->
     simulate_scheduler_fuel fuel o tasks m = Some (Ok tl)) /\
  (forall v s, sim_reach o m pending v s -> sim_cond pending v s = true ->
     exists v' s', sim_body pending v s = (Ok v', s') /\
       ((cur v < cur v')%nat \/
        (exists t, timeline v' = timeline v ++ [(time_now v, t)]) \/
        (exists p, pending !! cur v' = Some p /\
                   arrival_time (o p) = Some (time_now v') /\
                   time_now v < time_now v'))) /\
  (forall v s, sim_cond pending v s = false <->
               (length pending <= cur v)%nat /\ heap s = []).
Proof.
  intros pending. split; [|split].
  - destruct (simulate_scheduler_fuel_run o tasks m) as (tl & Hrun & _).
    exists tl. intros fuel Hle.
    rewrite simulate_scheduler_fuel_enough by done. exact Hrun.
  - intros v s Hreach Hcond.
    destruct (sim_body_run o pending v s (sim_reach_inv _ _ _ _ _ Hreach) Hcond)
      as (v' & s' & Hrun & _ & _ & [(t & _ & Ht & _)|(p & Hlt & Hp & Ha & _)]).
    + exists v', s'. split; [done|]. right. left. by exists t.
    + exists v', s'. split; [done|]. right. right. by exists p.
  - intros v s. apply sim_cond_false.
Qed.

Lemma simulation_terminates_witness :
  (2 * length [0; 1; 2; 3]%nat + 2 <= 12)%nat /\
  exists tl,
    simulate_scheduler_fuel 12 main_store [0; 1; 2; 3]%nat false = Some (Ok tl).
Proof.
  split; [cbn; lia|].
  destruct (simulation_terminates main_store [0; 1; 2; 3]%nat false)
    as [[tl Htl] _].
  exists tl. apply Htl. cbn. lia.
Defined.

(** C10: when the ids of the input tasks are pairwise distinct, the
    timeline returned by [simulate_scheduler] holds every input task exactly
    once, and its time stamps are strictly increasing. *)
Theorem timeline_complete (o : store) (tasks : list loc) (m : bool) :
  NoDup (id_of o <$> tasks) ->
  exists tl, simulate_scheduler o tasks m = Some (Ok tl) /\
    tl.*2 ≡ₚ tasks /\ NoDup tl.*2 /\ Sorted Z.lt tl.*1.
Proof.
  intros Hnd. destruct (simulate_scheduler_fuel_run o tasks m)
    as (tl & Hrun & Hp & Hs).
  exists tl. split; [done|]. split; [done|].
  split; [|by apply StronglySorted_Sorted].
  rewrite Hp. by eapply NoDup_fmap_1.
Qed.

Lemma timeline_complete_witness :
  NoDup (id_of main_store <$> [0; 1; 2; 3]%nat) /\
  exists tl, simulate_scheduler main_store [0; 1; 2; 3]%nat true = Some (Ok tl) /\
    tl.*2 ≡ₚ [0; 1; 2; 3]%nat /\ NoDup tl.*2 /\ Sorted Z.lt tl.*1.
Proof.
  assert (NoDup (id_of main_store <$> [0; 1; 2; 3]%nat)) as Hnd.
  { apply (bool_decide_unpack _). by vm_compute. }
  split; [exact Hnd|]. apply timeline_complete. exact Hnd.
Defined.

Section IdleSkip.

Lemma idle_skip_step pending v s p a :
  is_empty s = true -> pending !! cur v = Some p ->
  arrival_time (objs s p) = Some a -> 0 <= time_now v < a ->
  sim_body pending v s = (Ok (Sim a (cur v) (timeline v)), s).
Proof.
  intros Hempty Hp Harr Ha.
  assert (py_or (Some a) 0 = a /\ py_or (Some a) (time_now v) = a) as [H0 Ht].
  { unfold py_or. destruct (Z.eqb_spec a 0); [lia|done]. }
  unfold sim_body, admission.
  rewrite (drop_S _ _ _ Hp). cbn [admission_loop].
  unfold bind, gets, ret. rewrite Harr, H0.
  destruct (Z.leb_spec a (time_now v)); [lia|].
  by rewrite Hempty, Hp, Harr, Ht.
Qed.

Lemma single_late_task o t m :
  arrival_time (o t) = Some 10 ->
  simulate_scheduler o [t] m = Some (Ok [(10, t)]).
Proof.
  intros Harr. unfold simulate_scheduler, simulate_scheduler_fuel.
  cbn [sorted foldr sorted_insert length Nat.mul Nat.add].
  (* first iteration: nothing has arrived, the clock jumps to 10 *)
  cbn [sim_loop]. replace (sim_cond [t] (Sim 0 0 []) (init o m)) with true by done.
  rewrite (idle_skip_step [t] (Sim 0 0 []) (init o m) t 10) by (done || lia).
  (* second iteration: the task is admitted and extracted *)
  cbn [sim_loop cur time_now timeline].
  replace (sim_cond [t] (Sim 10 0 []) (init o m)) with true by done.
  destruct (insert_run t (init o m)) as (s1 & Hins & Ho1 & _ & Hp1 & _ & Ht1 & _).
  specialize (Ht1 (init_top_registered o m)).
  cbn in Hp1. apply Permutation_singleton_r in Hp1.
  destruct (extract_top_run s1 t) as (s2 & Hext & _ & _ & Hp2 & _).
  { by rewrite Hp1. } { done. }
  rewrite Hp1 in Hp2. apply Permutation_cons_inv, Permutation_nil_r in Hp2.
  assert (sim_body [t] (Sim 10 0 []) (init o m) =
          (Ok (Sim 11 1 [(10, t)]), s2)) as ->.
  { unfold sim_body, admission. cbn [drop cur time_now admission_loop].
    unfold bind, gets, ret. cbn [objs init]. rewrite Harr. cbn [py_or Z.eqb].
    rewrite Z.leb_refl. cbv beta iota.
    rewrite Hins. unfold is_empty. rewrite Hp1. cbn [length Nat.eqb].
    by rewrite Hext. }
  (* third iteration: nothing pending, nothing queued *)
  replace (sim_cond [t] (Sim 11 1 [(10, t)]) s2) with false; [done|].
  symmetry. apply sim_cond_false. done.
Qed.

End IdleSkip.

(** C7: a single task with arrival time 10 yields the one-entry timeline
    [[(10, task)]]; and whenever, with the clock at a time that is not
    negative, the queue is empty and the next pending task has not yet
    arrived, the iteration sets the clock to that task's arrival time and
    leaves the cursor, the timeline and the queue as they are. *)
Theorem idle_time_skipped :
  (forall o t m, arrival_time (o t) = Some 10 ->
     simulate_scheduler o [t] m = Some (Ok [(10, t)])) /\
  (forall pending v s p a,
     is_empty s = true -> pending !! cur v = Some p ->
     arrival_time (objs s p) = Some a -> 0 <= time_now v < a ->
     sim_body pending v s = (Ok (Sim a (cur v) (timeline v)), s)).
Proof. split; [apply single_late_task|apply idle_skip_step]. Qed.

Lemma idle_time_skipped_witness :
  simulate_scheduler late_store [0%nat] true = Some (Ok [(10, 0%nat)]) /\
  sim_body [0%nat] (Sim 3 0 []) (init late_store false) =
    (Ok (Sim 10 0 []), init late_store false).
Proof.
  split.
  - by apply (proj1 idle_time_skipped).
  - apply (proj2 idle_time_skipped [0%nat] (Sim 3 0 []) (init late_store false)
             0%nat 10); [done|done|done|cbn; lia].
Defined.

(** ** Heapsort *)

Section HeapsortProofs.

Lemma shuffled_refl e a : shuffled e a a.
Proof. repeat split; eauto. Qed.

Lemma shuffled_trans e a1 a2 a3 :
  shuffled e a1 a2 -> shuffled e a2 a3 -> shuffled e a1 a3.
Proof.
  intros (Hl & Hp & Hhi & Hlo) (Hl' & Hp' & Hhi' & Hlo').
  split; [congruence|]. split; [by etrans|]. split.
  - intros m Hm. by rewrite Hhi', Hhi.
  - intros i x Hi Hx. destruct (Hlo' i x Hi Hx) as (i' & Hi' & Hx'). eauto.
Qed.


Lemma list_swap_shuffled e (a a' : list Z) i j :
  (i <= e)%nat -> (j <= e)%nat -> list_swap a i j = Some a' -> shuffled e a a'.
Proof.
  intros Hi Hj Hs.
  split; [by eapply list_swap_length|]. split; [by eapply list_swap_perm|].
  split.
  - intros m Hm. rewrite (list_swap_lookup _ _ _ _ m Hs).
    rewrite !decide_False by lia. done.
  - intros m x Hm. rewrite (list_swap_lookup _ _ _ _ m Hs).
    repeat case_decide; eauto.
Qed.

Lemma list_swap_zat (a a' : list Z) i j m :
  list_swap a i j = Some a' -> zat a' m = exch (zat a) i j m.
Proof.
  intros Hs. unfold zat, exch. rewrite (list_swap_lookup _ _ _ _ m Hs).
  destruct (Nat.eqb_spec m i) as [->|Hmi];
    [|destruct (Nat.eqb_spec m j) as [->|Hmj]];
    repeat case_decide; subst; done.
Qed.

Lemma pick_child_spec K end_ root :
  (2 * root + 1 <= end_)%nat ->
  let c := pick_child K end_ root in
  child root c /\ (c <= end_)%nat /\
  forall c', child root c' -> (c' < S end_)%nat -> K c' <= K c.
Proof.
  intros Hle. unfold pick_child, child. cbn zeta.
  destruct (Nat.leb_spec (2 * root + 1 + 1) end_) as [Hr|Hr]; cbn [andb].
  - destruct (Z.ltb_spec (K (2 * root + 1)%nat) (K (2 * root + 1 + 1)%nat)).
    + split; [lia|]. split; [lia|]. intros c' [->| ->] _; [lia|].
      replace (2 * root + 2)%nat with (2 * root + 1 + 1)%nat by lia. lia.
    + split; [lia|]. split; [lia|]. intros c' [->| ->] _; [lia|].
      replace (2 * root + 2)%nat with (2 * root + 1 + 1)%nat by lia. lia.
  - split; [lia|]. split; [lia|]. intros c' [->| ->] Hc'; lia.
Qed.

(** One turn of the [while True] loop of [sift_down]. *)
Lemma heapsort_sift_down_loop_unfold fuel (a : list Z) root end_ :
  (end_ < length a)%nat ->
  sift_down_loop (S fuel) a root end_ =
    if (end_ <? 2 * root + 1)%nat then Some a
    else let c := pick_child (zat a) end_ root in
         if zat a root <? zat a c
         then a' ← list_swap a root c; sift_down_loop fuel a' c end_
         else Some a.
Proof.
  intros Hend. cbn [sift_down_loop].
  destruct (Nat.ltb_spec end_ (2 * root + 1)) as [|Hc]; [done|].
  unfold pick_child, zat. cbn zeta.
  destruct (lookup_lt_is_Some_2 a root ltac:(lia)) as [r Hr].
  destruct (lookup_lt_is_Some_2 a (2 * root + 1) ltac:(lia)) as [x Hx].
  destruct (Nat.leb_spec (2 * root + 1 + 1) end_) as [Hr1|Hr1]; cbn [andb].
  - destruct (lookup_lt_is_Some_2 a (2 * root + 1 + 1) ltac:(lia)) as [y Hy].
    rewrite Hx, Hy. cbn [mbind option_bind]. rewrite Hr.
    destruct (x <? y); cbn [mbind option_bind]; rewrite ?Hx, ?Hy; done.
  - cbn [mbind option_bind]. rewrite Hr, Hx. done.
Qed.

Lemma heapsort_sift_down_loop_run fuel : forall (a : list Z) root end_ lo,
  (end_ < length a)%nat -> (lo <= root)%nat -> (end_ - root <= fuel)%nat ->
  exists a', sift_down_loop fuel a root end_ = Some a' /\ shuffled end_ a a' /\
    (down_hole (zat a) lo (S end_) root -> ordered (zat a') lo (S end_)).
Proof.
  induction fuel as [|fuel IH]; intros a root end_ lo Hend Hlo Hf.
  { exists a. split; [done|]. split; [apply shuffled_refl|].
    intros Hd. eapply down_hole_done; [done|].
    intros c Hc Hlt. unfold child in Hc. lia. }
  rewrite heapsort_sift_down_loop_unfold by done.
  destruct (Nat.ltb_spec end_ (2 * root + 1)) as [Hnc|Hc].
  { exists a. split; [done|]. split; [apply shuffled_refl|].
    intros Hd. eapply down_hole_done; [done|].
    intros c Hc Hlt. unfold child in Hc. lia. }
  cbn zeta.
  destruct (pick_child_spec (zat a) end_ root Hc) as (Hch & Hce & Hmax).
  set (c := pick_child _ _ _) in *.
  destruct (Z.ltb_spec (zat a root) (zat a c)) as [Hlt|Hge]; cycle 1.
  { exists a. split; [done|]. split; [apply shuffled_refl|].
    intros Hd. eapply down_hole_done; [done|].
    intros c' Hc' Hlt'. specialize (Hmax c' Hc' Hlt'). lia. }
  assert (root < c)%nat as Hrc by (unfold child in Hch; lia).
  destruct (list_swap_is_Some a root c ltac:(lia) ltac:(lia)) as [a1 Hs].
  rewrite Hs. cbn [mbind option_bind].
  pose proof (list_swap_length _ _ _ _ Hs) as Hl1.
  destruct (IH a1 c end_ lo ltac:(lia) ltac:(lia) ltac:(lia))
    as (a' & Hrun & Hsh & Hord).
  exists a'. split; [done|]. split.
  { eapply shuffled_trans; [|done].
    eapply list_swap_shuffled; [| |done]; lia. }
  intros Hd. apply Hord.
  eapply down_hole_ext; [|by apply (down_hole_step (zat a) lo (S end_) root c);
                            [|done|lia|..]].
  intros m. by eapply list_swap_zat.
Qed.

(** More fuel than [end - root] changes nothing. *)
Lemma heapsort_sift_down_loop_fuel (a : list Z) root end_ f1 f2 :
  (end_ < length a)%nat -> (end_ - root <= f1)%nat -> (end_ - root <= f2)%nat ->
  sift_down_loop f1 a root end_ = sift_down_loop f2 a root end_.
Proof.
  revert a root f2. induction f1 as [|f1 IH]; intros a root f2 Hend H1 H2.
  - destruct f2 as [|f2]; [done|]. rewrite heapsort_sift_down_loop_unfold by done.
    destruct (Nat.ltb_spec end_ (2 * root + 1)); [done|lia].
  - destruct f2 as [|f2].
    + rewrite heapsort_sift_down_loop_unfold by done.
      destruct (Nat.ltb_spec end_ (2 * root + 1)); [done|lia].
    + rewrite !heapsort_sift_down_loop_unfold by done.
      destruct (Nat.ltb_spec end_ (2 * root + 1)) as [|Hc]; [done|]. cbn zeta.
      destruct (pick_child_spec (zat a) end_ root Hc) as (Hch & Hce & _).
      set (c := pick_child _ _ _) in *.
      destruct (zat a root <? zat a c); [|done].
      destruct (list_swap a root c) as [a1|] eqn:Hs; [|done].
      cbn [mbind option_bind].
      apply IH; [by rewrite (list_swap_length _ _ _ _ Hs)|..];
        unfold child in Hch; lia.
Qed.

Lemma heapsort_sift_down_run (a : list Z) start end_ :
  (end_ < length a)%nat ->
  exists a', sift_down a start end_ = Some a' /\ shuffled end_ a a' /\
    (down_hole (zat a) start (S end_) start -> ordered (zat a') start (S end_)).
Proof. intros Hend. by apply heapsort_sift_down_loop_run. Qed.

Lemma build_loop_run c : forall (a : list Z) n,
  length a = n -> (c = 0%nat \/ 1 <= n)%nat -> ordered (zat a) c n ->
  exists a', build_loop (rev (seq 0 c)) n a = Some a' /\
    a' ≡ₚ a /\ length a' = n /\ ordered (zat a') 0 n.
Proof.
  induction c as [|c IH]; intros a n Hlen Hn Hord.
  { exists a. by repeat split. }
  rewrite seq_S, rev_app_distr. cbn [rev app Nat.add build_loop].
  destruct (heapsort_sift_down_run a c (n - 1) ltac:(lia))
    as (a1 & Hrun & (Hl1 & Hp1 & _) & Hord1).
  rewrite Hrun. cbn [mbind option_bind].
  replace (S (n - 1)) with n in Hord1 by lia.
  destruct (IH a1 n ltac:(lia) ltac:(lia)
              (Hord1 (down_hole_start _ _ _ Hord)))
    as (a' & Hrun' & Hp' & Hl' & Hord').
  exists a'. split; [done|]. split; [by rewrite Hp'|done].
Qed.

(** Past the last slot that has a child there is nothing to order. *)
Lemma ordered_leaves (K : nat -> Z) (n : nat) :
  ordered K (Z.to_nat ((Z.of_nat n - 2) / 2 + 1)) n.
Proof.
  intros i c Hi Hc Hic. exfalso. unfold child in Hic.
  pose proof (Z.div_mod (Z.of_nat n - 2) 2 ltac:(lia)) as Hd.
  pose proof (Z.mod_pos_bound (Z.of_nat n - 2) 2 ltac:(lia)) as Hm.
  lia.
Qed.

Lemma sorted_from_Sorted (a : list Z) : sorted_from a 0 -> Sorted Z.le a.
Proof.
  induction a as [|x a IH]; intros Hs; [constructor|].
  constructor.
  - apply IH. intros i j u v _ Hij Hu Hv.
    apply (Hs (S i) (S j) u v); [lia|lia|done|done].
  - destruct a as [|y a]; constructor.
    apply (Hs 0%nat 1%nat x y); [lia|lia|done|done].
Qed.

Lemma sort_loop_run e : forall (a : list Z),
  (e = 0%nat \/ e < length a)%nat -> sort_inv a e ->
  exists a', sort_loop (rev (seq 1 e)) a = Some a' /\
    a' ≡ₚ a /\ sorted_from a' 0.
Proof.
  induction e as [|e IH]; intros a He (Hord & Hsuf & Hcross).
  { exists a. split; [done|]. split; [done|].
    intros i j x y _ Hij Hx Hy. destruct i as [|i].
    - destruct j as [|j]; [by simplify_eq|].
      apply (Hcross 0%nat (S j)); [lia|lia|done|done].
    - apply (Hsuf (S i) j); [lia|lia|done|done]. }
  rewrite seq_S, rev_app_distr. cbn [rev app Nat.add sort_loop].
  destruct He as [|He]; [done|].
  destruct (list_swap_is_Some a 0 (S e) ltac:(lia) He) as [a1 Hs].
  rewrite Hs. cbn [mbind option_bind].
  replace (S e - 1)%nat with e by lia.
  pose proof (list_swap_length _ _ _ _ Hs) as Hl1.
  assert (forall m, a1 !! m = if decide (m = S e) then a !! 0%nat
                              else if decide (m = 0%nat) then a !! S e
                              else a !! m) as Hlk1.
  { intros m. apply (list_swap_lookup _ _ _ _ m Hs). }
  destruct (heapsort_sift_down_run a1 0 e ltac:(lia))
    as (a2 & Hrun & (Hl2 & Hp2 & Hhi2 & Hlo2) & Hord2).
  rewrite Hrun. cbn [mbind option_bind].
  (* every element of a slot [<= e] of [a2] sits in a slot [<= S e] of [a] *)
  assert (forall i x, (i <= e)%nat -> a2 !! i = Some x ->
            exists i', (i' <= S e)%nat /\ a !! i' = Some x) as Hfrom.
  { intros i x Hi Hx. destruct (Hlo2 i x Hi Hx) as (i' & Hi' & Hx').
    rewrite Hlk1 in Hx'. rewrite decide_False in Hx' by lia.
    case_decide; [exists (S e)|exists i']; (split; [lia|done]). }
  (* the root of the heap [a[0..S e]] is its greatest element *)
  assert (forall i x r, (i <= S e)%nat -> a !! i = Some x ->
            a !! 0%nat = Some r -> x <= r) as Hmax.
  { intros i x r Hi Hx Hr.
    pose proof (ordered_root_max _ _ Hord i ltac:(lia)) as Hle.
    unfold zat in Hle. by rewrite Hx, Hr in Hle. }
  destruct (IH a2 ltac:(lia)) as (a' & Hrun' & Hp' & Hsorted).
  { split; [|split].
    - apply Hord2, down_hole_start. intros i c Hi Hc Hic.
      unfold zat. rewrite !Hlk1.
      rewrite !decide_False by (unfold child in Hic; lia).
      apply (Hord i c); [lia|lia|done].
    - intros i j x y Hi Hij. rewrite !Hhi2, !Hlk1 by lia.
      rewrite (decide_False (P := i = 0%nat)), (decide_False (P := j = 0%nat))
        by lia.
      intros Hx Hy.
      destruct (decide (i = S e)) as [->|Hie];
        destruct (decide (j = S e)) as [->|Hje]; try lia.
      + by simplify_eq.
      + apply (Hcross 0%nat j); [lia|lia|done|done].
      + apply (Hsuf i j); [lia|lia|done|done].
    - intros i j x y Hi Hj Hx. rewrite Hhi2, Hlk1 by lia.
      rewrite (decide_False (P := j = 0%nat)) by lia.
      destruct (Hfrom i x Hi Hx) as (i' & Hi' & Hx').
      destruct (decide (j = S e)) as [->|Hje]; intros Hy.
      + by apply (Hmax i' x y).
      + apply (Hcross i' j); [lia|lia|done|done]. }
  exists a'. split; [done|]. split; [|done].
  rewrite Hp', Hp2. by eapply list_swap_perm.
Qed.

Lemma heapsort_run (arr : list Z) :
  exists out, heapsort arr = Some out /\ out ≡ₚ arr /\ Sorted Z.le out.
Proof.
  unfold heapsort, range_down_to_0. cbn zeta.
  set (n := length arr).
  destruct (build_loop_run (Z.to_nat ((Z.of_nat n - 2) / 2 + 1)) arr n eq_refl)
    as (a1 & Hrun1 & Hp1 & Hl1 & Hord1).
  { pose proof (Z.div_mod (Z.of_nat n - 2) 2 ltac:(lia)) as Hd.
    pose proof (Z.mod_pos_bound (Z.of_nat n - 2) 2 ltac:(lia)) as Hm. lia. }
  { apply ordered_leaves. }
  rewrite Hrun1. cbn [mbind option_bind].
  destruct (sort_loop_run (n - 1) a1 ltac:(lia)) as (out & Hrun2 & Hp2 & Hs).
  { split; [|split].
    - intros i c Hi Hc Hic. apply Hord1; [lia| |done].
      unfold child in Hic. lia.
    - intros i j x y Hi _ Hx _. apply lookup_lt_Some in Hx. lia.
    - intros i j x y Hi Hj Hx Hy.
      apply lookup_lt_Some in Hx, Hy. lia. }
  exists out. split; [done|]. split; [by rewrite Hp2|].
  by apply sorted_from_Sorted.
Qed.

End HeapsortProofs.

(** C9: for every list of integers [heapsort] returns a list that is a
    permutation of its input and is in non-decreasing order; applied to its
    own output it returns that same list. *)
Theorem heapsort_sorts (arr : list Z) :
  exists out, heapsort arr = Some out /\
    out ≡ₚ arr /\ Sorted Z.le out /\ heapsort out = Some out.
Proof.
  destruct (heapsort_run arr) as (out & Hrun & Hp & Hs).
  exists out. split; [done|]. split; [done|]. split; [done|].
  destruct (heapsort_run out) as (out' & Hrun' & Hp' & Hs').
  rewrite Hrun'. f_equal. by apply (Sorted_unique Z.le).
Qed.

(** * Further properties of the queue *)

Section QueueCalls.

Lemma run_call_top_registered c s :
  top_registered s -> top_registered (run_call c s).
Proof.
  intros Ht.
  assert (forall id p, top_registered (snd (increase_key id p s))) as Hinc.
  { intros id p. destruct (position s !! id) as [idx|] eqn:Hpos;
      [|by rewrite increase_key_absent].
    destruct (heap s !! idx) as [t|] eqn:Hidx;
      [|by erewrite increase_key_stale].
    destruct (increase_key_run id p s idx t Hpos Hidx)
      as (s' & -> & _ & _ & _ & _ & _ & _ & Ht' & _). cbn. auto. }
  destruct c as [t| |id p|id p]; cbn [run_call]; [| |apply Hinc|apply Hinc].
  - destruct (insert_run t s) as (s' & -> & _ & _ & _ & _ & Ht' & _). cbn. auto.
  - destruct (heap s) as [|top rest] eqn:Hh.
    { by rewrite extract_top_empty. }
    destruct (extract_top_run s top) as (s' & -> & _ & _ & _ & _ & Ht' & _);
      [by rewrite Hh|done|done].
Qed.

Lemma run_calls_top_registered cs : forall s,
  top_registered s -> top_registered (run_calls cs s).
Proof.
  induction cs as [|c cs IH]; intros s Ht; [done|].
  cbn. by apply IH, run_call_top_registered.
Qed.

(** With pairwise distinct inserted ids both the order invariant and the
    position invariant hold along the calls. *)
Lemma run_calls_distinct_inv o cs : forall s,
  order_inv s -> position_inv o s ->
  NoDup (id_of o <$> inserted cs) ->
  (forall t, t ∈ heap s -> id_of o t ∉ id_of o <$> inserted cs) ->
  order_inv (run_calls cs s) /\ position_inv o (run_calls cs s).
Proof.
  induction cs as [|c cs IH]; intros s Hord Hpos Hnd Hnew; [done|].
  cbn.
  assert (match c with
          | Insert t => forall t', t' ∈ heap s -> id_of o t' <> id_of o t
          | _ => True
          end) as Hfresh.
  { destruct c as [t| | |]; try done. intros t' Ht' Heq.
    apply (Hnew t' Ht'). cbn. rewrite Heq. by left. }
  destruct (run_call_position_inv o c s Hpos Hfresh) as [Hpos' Hsub].
  apply IH; [|done| |].
  - apply run_call_order_inv; [done|].
    destruct c as [t| | |]; try done. intros Hin. by apply (Hfresh t Hin).
  - destruct c; cbn in Hnd; try done. by apply NoDup_cons in Hnd as [_ ?].
  - intros t Ht. destruct (Hsub t Ht) as [Hold|Hc].
    + specialize (Hnew t Hold). destruct c; cbn in Hnew; try done.
      by apply not_elem_of_cons in Hnew as [_ ?].
    + destruct c as [t0| | |]; try done. subst t0.
      cbn in Hnd. by apply NoDup_cons in Hnd as [? _].
Qed.

Lemma distinct_ids_inv o m cs :
  NoDup (id_of o <$> inserted cs) ->
  order_inv (run_calls cs (init o m)) /\
  position_inv o (run_calls cs (init o m)).
Proof.
  intros Hnd. apply run_calls_distinct_inv; [| |done|].
  - split; [apply init_heap_inv|].
    split; [constructor|apply init_top_registered].
  - split; [|split; [|done]].
    + intros id i Hi. by cbn in Hi.
    + intros i t Hi. by cbn in Hi.
  - intros t Ht. by apply elem_of_nil in Ht.
Qed.

End QueueCalls.

(** X1: whatever calls were made on a queue since it was created, also with
    ids or objects inserted twice, [extract_top] raises exactly when
    [is_empty] holds: on an empty queue it raises [IndexError] and changes
    nothing; otherwise it returns the task in the root slot and the heap
    keeps the other tasks ([del self.position[...]] never raises). *)
Theorem extract_top_raises_iff_empty (o : store) (m : bool) (cs : list call) :
  let s := run_calls cs (init o m) in
  (is_empty s = true -> extract_top s = (Raise IndexError, s)) /\
  (is_empty s = false ->
   exists top s', heap s !! 0%nat = Some top /\
     extract_top s = (Ok top, s') /\ top :: heap s' ≡ₚ heap s).
Proof.
  intros s. unfold is_empty. split.
  - intros He. apply Nat.eqb_eq, nil_length_inv in He.
    by apply extract_top_empty.
  - intros He. apply Nat.eqb_neq in He.
    destruct (heap s) as [|top rest] eqn:Hh; [done|].
    destruct (extract_top_run s top) as (s' & Hrun & _ & _ & Hp & _).
    { by rewrite Hh. }
    { apply run_calls_top_registered, init_top_registered. }
    exists top, s'. split; [done|]. split; [done|]. by rewrite <- Hh.
Qed.

Lemma extract_top_raises_iff_empty_witness :
  let s := run_calls [Insert 0%nat; Insert 1%nat; Insert 0%nat; ExtractTop]
             (init twin_store true) in
  is_empty s = false /\
  exists top s', heap s !! 0%nat = Some top /\
    extract_top s = (Ok top, s') /\ top :: heap s' ≡ₚ heap s.
Proof.
  split; [by vm_compute|].
  apply (proj2 (extract_top_raises_iff_empty twin_store true
                  [Insert 0%nat; Insert 1%nat; Insert 0%nat; ExtractTop])).
  by vm_compute.
Defined.

(** X2: after calls in which no object is inserted while resident, the task
    that [extract_top] returns was resident, no resident task has a greater
    effective key, the heap afterwards holds exactly the other tasks, and
    it is again in heap order. *)
Theorem extract_top_returns_max (o : store) (m : bool) (cs : list call)
    (top : loc) (s' : state) :
  inserts_fresh cs (init o m) = true ->
  let s := run_calls cs (init o m) in
  extract_top s = (Ok top, s') ->
  top ∈ heap s /\ (forall t, t ∈ heap s -> _key s t <= _key s top) /\
  top :: heap s' ≡ₚ heap s /\ heap_inv s'.
Proof.
  intros Hf s Hrun.
  destruct (run_calls_order_inv cs (init o m)) as (Hi & _ & Ht); [|done|].
  { split; [apply init_heap_inv|].
    split; [constructor|apply init_top_registered]. }
  fold s in Hi, Ht.
  destruct (heap s) as [|top0 rest] eqn:Hh.
  { rewrite extract_top_empty in Hrun by done. done. }
  destruct (extract_top_run s top0) as (s1 & Hrun1 & _ & _ & Hp & Hi1 & _);
    [by rewrite Hh|done|].
  rewrite Hrun1 in Hrun. injection Hrun as -> ->.
  split; [by left|]. split; [|split; [by rewrite <- Hh|by auto]].
  intros t Hin. apply heap_inv_top_max; [done|by rewrite Hh|by rewrite Hh].
Qed.

Lemma extract_top_returns_max_witness :
  let cs := [Insert 0%nat; Insert 1%nat; Insert 2%nat; DecreaseKey "B" 0] in
  let s := run_calls cs (init abc_store true) in
  (0%nat ∈ heap s /\ (forall t, t ∈ heap s -> _key s t <= _key s 0%nat)) /\
  inserts_fresh cs (init abc_store true) = true.
Proof.
  intros cs s. split; [|by vm_compute].
  destruct (extract_top_returns_max abc_store true cs 0%nat
              (snd (extract_top s))) as (H1 & H2 & _).
  - by vm_compute.
  - by vm_compute.
  - by split.
Defined.

(** X3: after calls whose inserted tasks have pairwise distinct ids,
    [increase_key] and [decrease_key] on an id that no resident task
    carries raise [KeyError] and leave the queue as it is. *)
Theorem update_unknown_id_raises (o : store) (m : bool) (cs : list call)
    (id : string) (p : Z) :
  NoDup (id_of o <$> inserted cs) ->
  let s := run_calls cs (init o m) in
  (forall t, t ∈ heap s -> task_id (objs s t) <> id) ->
  increase_key id p s = (Raise KeyError, s) /\
  decrease_key id p s = (Raise KeyError, s).
Proof.
  intros Hnd s Hno.
  destruct (distinct_ids_inv o m cs Hnd) as (_ & Hso & _ & _). fold s in Hso.
  assert (position s !! id = None) as Hpos.
  { destruct (position s !! id) as [i|] eqn:Hi; [|done].
    destruct (Hso _ _ Hi) as (t & Ht & Hid).
    destruct (Hno t); [by eapply list_elem_of_lookup_2|done]. }
  unfold decrease_key. by rewrite increase_key_absent.
Qed.

Lemma update_unknown_id_raises_witness :
  let cs := [Insert 0%nat; Insert 1%nat; ExtractTop] in
  let s := run_calls cs (init abc_store true) in
  NoDup (id_of abc_store <$> inserted cs) /\
  increase_key "B" 9 s = (Raise KeyError, s).
Proof.
  intros cs s.
  assert (NoDup (id_of abc_store <$> inserted cs)) as Hnd.
  { apply (bool_decide_unpack _). by vm_compute. }
  split; [exact Hnd|].
  apply (update_unknown_id_raises abc_store true cs "B" 9 Hnd).
  intros t Ht.
  assert (heap s = [0%nat]) as Hh by (by vm_compute).
  change (t ∈ heap s) in Ht. rewrite Hh in Ht.
  apply list_elem_of_singleton in Ht as ->. by vm_compute.
Defined.

(** X4: after calls whose inserted tasks have pairwise distinct ids,
    [increase_key] on the id of a resident task returns normally; that task
    then has the new priority, every other task object is untouched, the
    same tasks are resident, and heap order and the position map are
    intact. *)
Theorem increase_key_updates (o : store) (m : bool) (cs : list call)
    (t : loc) (p : Z) :
  NoDup (id_of o <$> inserted cs) ->
  let s := run_calls cs (init o m) in
  t ∈ heap s ->
  exists s', increase_key (task_id (objs s t)) p s = (Ok tt, s') /\
    priority (objs s' t) = p /\
    (forall l, l <> t -> objs s' l = objs s l) /\
    heap s' ≡ₚ heap s /\ heap_inv s' /\ pos_inv s'.
Proof.
  intros Hnd s Hin.
  destruct (distinct_ids_inv o m cs Hnd) as ((Hi & Hndh & _) & Hso & Hco & _).
  fold s in Hi, Hndh, Hso, Hco.
  apply list_elem_of_lookup_1 in Hin as [i Hi0].
  destruct (increase_key_run _ p s i t (Hco _ _ Hi0) Hi0)
    as (s' & Hrun & _ & _ & Hoff & Hp & Hperm & Hi' & _ & Hso' & Hco').
  exists s'. split; [done|]. split; [done|]. split; [done|].
  split; [done|]. split; [auto|].
  split; [auto|]. split; [auto|]. apply pos_size; auto.
Qed.

Lemma increase_key_updates_witness :
  let cs := [Insert 0%nat; Insert 1%nat; Insert 2%nat] in
  let s := run_calls cs (init abc_store false) in
  NoDup (id_of abc_store <$> inserted cs) /\ 2%nat ∈ heap s /\
  exists s', increase_key "C" 7 s = (Ok tt, s') /\ priority (objs s' 2%nat) = 7.
Proof.
  intros cs s.
  assert (NoDup (id_of abc_store <$> inserted cs)) as Hnd.
  { apply (bool_decide_unpack _). by vm_compute. }
  assert (2%nat ∈ heap s) as Hin.
  { apply list_elem_of_lookup_2 with 0%nat. by vm_compute. }
  split; [exact Hnd|]. split; [exact Hin|].
  destruct (increase_key_updates abc_store false cs 2%nat 7 Hnd Hin)
    as (s' & Hrun & Hp & _).
  exists s'. by split.
Defined.

(** X5: after calls whose inserted tasks have pairwise distinct ids, when
    [increase_key] gives a resident task an effective key strictly above
    that of every other resident task, the next [extract_top] returns that
    task. *)
Theorem updated_task_extracted_first (o : store) (m : bool) (cs : list call)
    (t : loc) (p : Z) :
  NoDup (id_of o <$> inserted cs) ->
  let s := run_calls cs (init o m) in
  t ∈ heap s ->
  (forall t', t' ∈ heap s -> t' <> t ->
     _key s t' < (if use_max_heap s then p else - p)) ->
  exists s1 s2, increase_key (task_id (objs s t)) p s = (Ok tt, s1) /\
    extract_top s1 = (Ok t, s2).
Proof.
  intros Hnd s Hin Hbest.
  destruct (distinct_ids_inv o m cs Hnd) as ((Hi & Hndh & Htop) & _ & Hco & _).
  fold s in Hi, Hndh, Htop, Hco.
  apply list_elem_of_lookup_1 in Hin as [i Hi0].
  destruct (increase_key_run _ p s i t (Hco _ _ Hi0) Hi0)
    as (s1 & Hrun & Hm & _ & Hoff & Hp & Hperm & Hi1 & Ht1 & _).
  specialize (Hi1 Hndh Hi). specialize (Ht1 Htop).
  assert (t ∈ heap s1) as Hin1.
  { rewrite Hperm. by eapply list_elem_of_lookup_2. }
  destruct (heap s1) as [|top rest] eqn:Hh1; [by apply elem_of_nil in Hin1|].
  destruct (extract_top_run s1 top) as (s2 & Hrun2 & _); [by rewrite Hh1|done|].
  exists s1, s2. split; [done|].
  destruct (decide (top = t)) as [->|Hne]; [done|]. exfalso.
  assert (top ∈ heap s) as Htin by (rewrite <- Hperm; by left).
  specialize (Hbest top Htin Hne).
  pose proof (heap_inv_top_max s1 top t Hi1) as Hmax.
  rewrite Hh1 in Hmax. specialize (Hmax eq_refl Hin1).
  unfold _key in Hbest, Hmax. rewrite Hm, Hp, (Hoff top Hne) in Hmax. lia.
Qed.

Lemma updated_task_extracted_first_witness :
  let cs := [Insert 0%nat; Insert 1%nat; Insert 2%nat] in
  let s := run_calls cs (init abc_store false) in
  NoDup (id_of abc_store <$> inserted cs) /\ 1%nat ∈ heap s /\
  exists s1 s2, increase_key "B" 0 s = (Ok tt, s1) /\
    extract_top s1 = (Ok 1%nat, s2).
Proof.
  intros cs s.
  assert (NoDup (id_of abc_store <$> inserted cs)) as Hnd.
  { apply (bool_decide_unpack _). by vm_compute. }
  assert (heap s = [2; 1; 0]%nat) as Hh by (by vm_compute).
  assert (1%nat ∈ heap s) as Hin.
  { apply list_elem_of_lookup_2 with 1%nat. by vm_compute. }
  split; [exact Hnd|]. split; [exact Hin|].
  apply (updated_task_extracted_first abc_store false cs 1%nat 0 Hnd Hin).
  intros t' Ht' Hne. change (t' ∈ heap s) in Ht'. rewrite Hh in Ht'.
  apply elem_of_cons in Ht' as [->|Ht']; [by vm_compute|].
  apply elem_of_cons in Ht' as [->|Ht']; [done|].
  apply list_elem_of_singleton in Ht' as ->. by vm_compute.
Defined.

(** X6: after calls whose inserted tasks have pairwise distinct ids, a task
    returned by [extract_top] is no longer known to the queue: updating its
    priority raises [KeyError]. *)
Theorem extracted_task_unknown (o : store) (m : bool) (cs : list call)
    (top : loc) (s' : state) (p : Z) :
  NoDup (id_of o <$> inserted cs) ->
  let s := run_calls cs (init o m) in
  extract_top s = (Ok top, s') ->
  increase_key (task_id (objs s top)) p s' = (Raise KeyError, s').
Proof.
  intros Hnd s Hrun.
  destruct (distinct_ids_inv o m cs Hnd) as ((_ & Hndh & Htop) & Hso & Hco & _).
  fold s in Hndh, Htop, Hso, Hco.
  destruct (heap s) as [|top0 rest] eqn:Hh.
  { rewrite extract_top_empty in Hrun by done. done. }
  destruct (extract_top_run s top0)
    as (s1 & Hrun1 & Ho & _ & Hp & _ & _ & Hso1 & _); [by rewrite Hh|done|].
  rewrite Hrun1 in Hrun. injection Hrun as -> ->.
  apply increase_key_absent.
  destruct (position s' !! task_id (objs s top)) as [i|] eqn:Hi; [|done].
  exfalso. destruct (Hso1 Hso _ _ Hi) as (t & Ht & Hid).
  rewrite Ho in Hid.
  assert (t ∈ heap s') as Hin' by by eapply list_elem_of_lookup_2.
  assert (t ∈ heap s) as Hin by (rewrite <- Hp; by right).
  apply list_elem_of_lookup_1 in Hin as [j Hj].
  assert (heap s !! 0%nat = Some top) as H0 by by rewrite Hh.
  pose proof (Hco _ _ Hj) as Hpj. pose proof (Hco _ _ H0) as Hp0.
  rewrite Hid in Hpj. assert (j = 0%nat) as -> by congruence.
  assert (t = top) as -> by congruence.
  rewrite Hh in Hp. rewrite <- Hp in Hndh.
  apply NoDup_cons in Hndh as [Hnot _]. done.
Qed.

Lemma extracted_task_unknown_witness :
  let cs := [Insert 0%nat; Insert 1%nat; Insert 2%nat] in
  let s := run_calls cs (init abc_store true) in
  NoDup (id_of abc_store <$> inserted cs) /\
  fst (extract_top s) = Ok 1%nat /\
  increase_key "B" 9 (snd (extract_top s)) =
    (Raise KeyError, snd (extract_top s)).
Proof.
  intros cs s.
  assert (NoDup (id_of abc_store <$> inserted cs)) as Hnd.
  { apply (bool_decide_unpack _). by vm_compute. }
  split; [exact Hnd|]. split; [by vm_compute|].
  apply (extracted_task_unknown abc_store true cs 1%nat _ 9 Hnd).
  by vm_compute.
Defined.

(** X7: [_swap] with an index beyond the end of the heap raises
    [IndexError] before it writes anything; with both indices in range it
    exchanges the two slots, leaves the other slots alone, and records the
    new slots of the two tasks in the position map. *)
Theorem swap_bounds (i j : nat) (s : state) :
  ((length (heap s) <= i \/ length (heap s) <= j)%nat ->
   _swap i j s = (Raise IndexError, s)) /\
  (forall a b, heap s !! i = Some a -> heap s !! j = Some b ->
   exists s', _swap i j s = (Ok tt, s') /\
     heap s' !! i = Some b /\ heap s' !! j = Some a /\
     (forall k, k <> i -> k <> j -> heap s' !! k = heap s !! k) /\
     position s' !! task_id (objs s a) = Some j /\
     (task_id (objs s b) <> task_id (objs s a) ->
      position s' !! task_id (objs s b) = Some i) /\
     objs s' = objs s).
Proof.
  split.
  - intros Hout. unfold _swap, bind, list_swap.
    destruct (heap s !! j) as [x|] eqn:Hj; [|done].
    destruct (heap s !! i) as [y|] eqn:Hi; [|done].
    apply lookup_lt_Some in Hi, Hj. lia.
  - intros a b Ha Hb.
    destruct (swap_run s i j a b Ha Hb) as (h & Hh & Hrun).
    eexists. split; [exact Hrun|]. cbn.
    pose proof (fun k => list_swap_lookup _ _ _ _ k Hh) as Hlk.
    split; [|split; [|split; [|split; [|split]]]].
    + rewrite Hlk. case_decide; [subst; congruence|]. by rewrite decide_True.
    + rewrite Hlk. by rewrite decide_True.
    + intros k Hki Hkj. rewrite Hlk. by rewrite !decide_False.
    + by rewrite lookup_insert_eq.
    + intros Hne. rewrite lookup_insert_ne by done. by rewrite lookup_insert_eq.
    + done.
Qed.

Lemma swap_bounds_witness :
  let s := run_calls [Insert 0%nat; Insert 1%nat] (init abc_store false) in
  _swap 0 2 s = (Raise IndexError, s) /\
  exists s', _swap 0 1 s = (Ok tt, s') /\ heap s' !! 0%nat = Some 1%nat.
Proof.
  intros s. split.
  - apply (proj1 (swap_bounds 0 2 s)). right. by vm_compute.
  - destruct (proj2 (swap_bounds 0 1 s) 0%nat 1%nat) as (s' & Hrun & H0 & _);
      [by vm_compute|by vm_compute|].
    by exists s'.
Defined.



(** X9: on a heap that is in heap order, [_sift_up] and [_sift_down] from
    any slot of the heap change nothing. *)
Theorem sift_ordered_noop (idx : nat) (s : state) :
  heap_inv s -> (idx < length (heap s))%nat ->
  _sift_up idx s = (Ok tt, s) /\ _sift_down idx s = (Ok tt, s).
Proof.
  intros Hi Hlt. apply heap_inv_ordered in Hi. split.
  - unfold _sift_up. destruct idx as [|idx]; [done|].
    cbn [_sift_up_loop]. destruct (Nat.ltb_spec 0 (S idx)) as [Hpos|]; [|lia].
    pose proof (child_parent (S idx) Hpos) as Hc.
    set (parent := ((S idx - 1) / 2)%nat) in *.
    assert (parent < S idx)%nat by (unfold child in Hc; lia).
    unfold bind at 1. rewrite key_at_lt by lia.
    unfold bind at 1. rewrite key_at_lt by lia.
    specialize (Hi parent (S idx) ltac:(lia) Hlt Hc).
    destruct (Z.ltb_spec (kat s parent) (kat s (S idx))); [lia|done].
  - unfold _sift_down, bind, gets.
    destruct (length (heap s) - idx)%nat as [|fuel] eqn:Hf; [lia|].
    rewrite sift_down_loop_unfold by done. cbn zeta.
    destruct (pick_largest_spec (kat s) (length (heap s)) idx)
      as [[-> _]|(Hc & Hl & Hlt' & _)].
    + by rewrite Nat.eqb_refl.
    + specialize (Hi idx _ ltac:(lia) Hl Hc). lia.
Qed.

Lemma sift_ordered_noop_witness :
  let s := run_calls [Insert 0%nat; Insert 1%nat; Insert 2%nat]
             (init abc_store true) in
  _sift_up 2 s = (Ok tt, s) /\ _sift_down 0 s = (Ok tt, s).
Proof.
  intros s.
  assert (heap_inv s) as Hi.
  { apply run_calls_order_inv; [|by vm_compute].
    split; [apply init_heap_inv|].
    split; [constructor|apply init_top_registered]. }
  split.
  - apply (sift_ordered_noop 2 s Hi). vm_compute. lia.
  - apply (sift_ordered_noop 0 s Hi). vm_compute. lia.
Defined.

(** X10: after calls in which no object is inserted while resident,
    inserting a task whose effective key is strictly above that of every
    resident task and then calling [extract_top] returns that very task and
    leaves the queue with the tasks it had before, in heap order; on an
    empty queue this holds for any task. *)
Theorem insert_then_extract_best (o : store) (m : bool) (cs : list call)
    (t : loc) :
  inserts_fresh cs (init o m) = true ->
  let s := run_calls cs (init o m) in
  (forall t', t' ∈ heap s -> _key s t' < _key s t) ->
  exists s1 s2, insert t s = (Ok tt, s1) /\ extract_top s1 = (Ok t, s2) /\
    heap s2 ≡ₚ heap s /\ heap_inv s2.
Proof.
  intros Hf s Hbest.
  destruct (run_calls_order_inv cs (init o m)) as (Hi & _ & Ht); [|done|].
  { split; [apply init_heap_inv|].
    split; [constructor|apply init_top_registered]. }
  fold s in Hi, Ht.
  destruct (insert_run t s) as (s1 & Hrun1 & Ho & Hm & Hp & Hi1 & Ht1 & _).
  specialize (Hi1 Hi). specialize (Ht1 Ht).
  assert (t ∈ heap s1) as Hin1 by (rewrite Hp; by left).
  destruct (heap s1) as [|top rest] eqn:Hh1; [by apply elem_of_nil in Hin1|].
  destruct (extract_top_run s1 top) as (s2 & Hrun2 & _ & _ & Hp2 & Hi2 & _);
    [by rewrite Hh1|done|].
  assert (top = t) as ->.
  { destruct (decide (top = t)) as [|Hne]; [done|]. exfalso.
    assert (top ∈ heap s) as Hold.
    { assert (top ∈ t :: heap s) as Hin by (rewrite <- Hp; by left).
      apply elem_of_cons in Hin as [|]; done. }
    specialize (Hbest top Hold).
    pose proof (heap_inv_top_max s1 top t Hi1) as Hmax.
    rewrite Hh1 in Hmax. specialize (Hmax eq_refl Hin1).
    rewrite !(same_objs_key s s1) in Hmax by done. lia. }
  exists s1, s2. split; [done|]. split; [done|]. split; [|auto].
  rewrite Hh1 in Hp2. rewrite <- Hp2 in Hp. by apply Permutation_cons_inv in Hp.
Qed.

Lemma insert_then_extract_best_witness :
  let cs := [Insert 0%nat; Insert 2%nat] in
  let s := run_calls cs (init abc_store true) in
  inserts_fresh cs (init abc_store true) = true /\
  exists s1 s2, insert 1%nat s = (Ok tt, s1) /\
    extract_top s1 = (Ok 1%nat, s2) /\ heap s2 ≡ₚ heap s.
Proof.
  intros cs s.
  assert (inserts_fresh cs (init abc_store true) = true) as Hf by by vm_compute.
  split; [exact Hf|].
  destruct (insert_then_extract_best abc_store true cs 1%nat Hf)
    as (s1 & s2 & H1 & H2 & H3 & _).
  - intros t' Ht'. change (t' ∈ heap s) in Ht'.
    assert (heap s = [0; 2]%nat) as Hh by (by vm_compute). rewrite Hh in Ht'.
    apply elem_of_cons in Ht' as [->|Ht']; [by vm_compute|].
    apply list_elem_of_singleton in Ht' as ->. by vm_compute.
  - by exists s1, s2.
Defined.

(** * Further properties of the simulation *)

Section Schedule.

Lemma py_or_arrival_key o t : py_or (arrival_time (o t)) 0 = arrival_key o t.
Proof.
  unfold py_or, arrival_key. destruct (arrival_time (o t)) as [a|]; [|done].
  by destruct (Z.eqb_spec a 0).
Qed.

Lemma sorted_insert_sorted {A} (key : A -> Z) x (l : list A) :
  StronglySorted (fun a b => key a <= key b) l ->
  StronglySorted (fun a b => key a <= key b) (sorted_insert key x l).
Proof.
  induction 1 as [|y l Hs IH Hy]; cbn.
  { repeat constructor. }
  destruct (Z.leb_spec (key x) (key y)) as [Hle|Hgt].
  - constructor; [by constructor|]. constructor; [done|].
    eapply Forall_impl; [exact Hy|]. cbn. intros z Hz. lia.
  - constructor; [done|].
    rewrite sorted_insert_perm. constructor; [lia|done].
Qed.

(** [sorted] orders by key. *)
Lemma sorted_sorted {A} (key : A -> Z) (l : list A) :
  StronglySorted (fun a b => key a <= key b) (sorted key l).
Proof.
  induction l as [|x l IH]; cbn; [constructor|].
  by apply sorted_insert_sorted.
Qed.

Lemma admission_loop_sched rest : forall time i s,
  top_registered s -> heap_inv s ->
  exists k s', admission_loop rest time i s = (Ok (i + k)%nat, s') /\
    objs s' = objs s /\ use_max_heap s' = use_max_heap s /\
    heap s' ≡ₚ take k rest ++ heap s /\
    top_registered s' /\ heap_inv s' /\
    Forall (fun y => py_or (arrival_time (objs s y)) 0 <= time) (take k rest) /\
    (forall p, rest !! k = Some p -> time < py_or (arrival_time (objs s p)) 0) /\
    (k = 0%nat -> s' = s).
Proof.
  induction rest as [|t rest IH]; intros time i s Ht Hi.
  { exists 0%nat, s. cbn. rewrite Nat.add_0_r.
    repeat split; try done; by constructor. }
  cbn [admission_loop]. unfold bind at 1, gets at 1.
  destruct (Z.leb_spec (py_or (arrival_time (objs s t)) 0) time) as [Hle|Hgt].
  - destruct (insert_run t s) as (s1 & Hrun & Ho & Hm & Hp & Hi1 & Ht1 & _).
    destruct (IH time (S i) s1 (Ht1 Ht) (Hi1 Hi))
      as (k & s' & Hrun' & Ho' & Hm' & Hp' & Ht' & Hi' & Hall & Hstop & _).
    exists (S k), s'. unfold bind. rewrite Hrun, Hrun'.
    replace (i + S k)%nat with (S i + k)%nat by lia.
    split; [done|]. split; [congruence|]. split; [congruence|]. split.
    { rewrite Hp', Hp. cbn. by rewrite Permutation_middle. }
    split; [done|]. split; [done|]. split; [|split; [|done]].
    + cbn. constructor; [done|]. by rewrite <- Ho.
    + intros p Hp0. cbn in Hp0. rewrite <- Ho. by apply Hstop.
  - exists 0%nat, s. unfold ret. rewrite Nat.add_0_r.
    repeat split; try done; try (by constructor). intros p [= <-]. done.
Qed.

Lemma key_init o m s x :
  objs s = o -> use_max_heap s = m -> _key s x = _key (init o m) x.
Proof. intros <- <-. done. Qed.

Lemma sim_body_sched o m pending v s :
  StronglySorted (fun a b => arrival_key o a <= arrival_key o b) pending ->
  sim_inv o pending v s -> sched_inv o m pending v s ->
  sim_cond pending v s = true ->
  exists v' s', sim_body pending v s = (Ok v', s') /\
    sched_inv o m pending v' s'.
Proof.
  intros Hsorted (Ho & Htime & Htop & Hcur & _) Hsched Hcond.
  destruct Hsched as (Hm & Hi & Harr & Hon & Hbest & Hrest).
  unfold sim_body, admission. unfold bind at 1.
  destruct (admission_loop_sched (drop (cur v) pending) (time_now v) (cur v) s
              Htop Hi)
    as (k & s1 & Hrun & Ho1 & Hm1 & Hp1 & Ht1 & Hi1 & Hadm & Hstop & Hk0).
  rewrite Hrun. unfold bind at 1, gets at 1.
  destruct (is_empty s1) eqn:Hempty.
  - (* idle skip: only the clock moves *)
    unfold is_empty in Hempty. apply Nat.eqb_eq, nil_length_inv in Hempty.
    assert (forall t', sched_inv o m pending
              (Sim t' (cur v + k) (timeline v)) s1) as Hgoal.
    { intros t'. unfold sched_inv. cbn [time_now cur timeline].
      rewrite Hempty. split; [congruence|]. split; [done|].
      split; [constructor|]. split; [done|]. split; [done|].
      intros e y He Hy Hle. apply Hrest; [done| |done].
      rewrite app_nil_l, <- drop_drop in Hy.
      apply elem_of_app. right. by eapply subseteq_drop. }
    destruct (pending !! (cur v + k)%nat) as [p|];
      unfold bind, gets, ret; eexists _, s1; (split; [done|apply Hgoal]).
  - (* run the best task *)
    unfold is_empty in Hempty. apply Nat.eqb_neq in Hempty.
    destruct (heap s1) as [|top rest] eqn:Hh1; [done|].
    destruct (extract_top_run s1 top)
      as (s2 & Hrun2 & Ho2 & Hm2 & Hp2 & Hi2 & _); [by rewrite Hh1|done|].
    unfold bind, ret. rewrite Hrun2. eexists _, s2. split; [done|].
    assert (forall y, _key s1 y = _key (init o m) y) as Hkey.
    { intros y. apply key_init; congruence. }
    (* what the heap held when [top] was taken had arrived, and comes from
       the old heap or from the pending tasks *)
    assert (forall y, y ∈ heap s1 ->
              arrival_key o y <= time_now v /\
              y ∈ heap s ++ drop (cur v) pending /\
              _key (init o m) y <= _key (init o m) top) as Hheld.
    { intros y Hy. split; [|split].
      - rewrite Hh1, Hp1 in Hy. apply elem_of_app in Hy as [Hy|Hy].
        + rewrite Forall_forall in Hadm. specialize (Hadm y Hy).
          by rewrite Ho, py_or_arrival_key in Hadm.
        + rewrite Forall_forall in Harr. by apply Harr.
      - rewrite Hh1, Hp1 in Hy. apply elem_of_app.
        apply elem_of_app in Hy as [Hy|Hy].
        + right. by eapply subseteq_take.
        + by left.
      - rewrite <- !Hkey. apply heap_inv_top_max; [done|by rewrite Hh1|done]. }
    assert (forall y, y ∈ heap s2 -> y ∈ heap s1) as Hsub.
    { intros y Hy. rewrite <- Hp2. by right. }
    assert (top ∈ heap s1) as Htin by (rewrite Hh1; by left).
    (* the pending tasks left have not arrived *)
    assert (forall y, y ∈ drop (cur v + k) pending ->
              time_now v < arrival_key o y) as Hlate.
    { intros y Hy. rewrite <- drop_drop in Hy.
      destruct (drop k (drop (cur v) pending)) as [|p rest'] eqn:Hd;
        [by apply elem_of_nil in Hy|].
      assert (drop (cur v) pending !! k = Some p) as Hpk.
      { rewrite <- (Nat.add_0_r k), <- lookup_drop, Hd. done. }
      specialize (Hstop p Hpk). rewrite Ho, py_or_arrival_key in Hstop.
      apply elem_of_cons in Hy as [->|Hy]; [done|].
      assert (StronglySorted (fun a b => arrival_key o a <= arrival_key o b)
                (p :: rest')) as Hs.
      { rewrite <- Hd, drop_drop.
        rewrite <- (take_drop (cur v + k) pending) in Hsorted.
        by apply StronglySorted_app in Hsorted as (_ & _ & ?). }
      apply StronglySorted_inv in Hs as [_ Hall].
      rewrite Forall_forall in Hall. specialize (Hall y Hy). cbn in Hall. lia. }
    unfold sched_inv. cbn [time_now cur timeline].
    split; [congruence|]. split; [auto|]. split; [|split; [|split]].
    + apply Forall_forall. intros y Hy.
      destruct (Hheld y (Hsub y Hy)) as [? _]. lia.
    + apply Forall_app. split; [done|]. constructor; [|constructor].
      cbn. by destruct (Hheld top Htin).
    + intros i j e e' Hij He He' Hle.
      apply lookup_snoc_Some in He' as [[Hj He']|[Hj <-]].
      * rewrite lookup_app_l in He by lia. by apply (Hbest i j e e').
      * rewrite lookup_app_l in He by lia. cbn in *.
        apply Hrest; [by eapply list_elem_of_lookup_2| |done].
        by destruct (Hheld top Htin) as (_ & ? & _).
    + intros e y He Hy Hle.
      apply elem_of_app in He as [He|He].
      * apply Hrest; [done| |done].
        apply elem_of_app in Hy as [Hy|Hy].
        -- by destruct (Hheld y (Hsub y Hy)) as (_ & ? & _).
        -- apply elem_of_app. right. rewrite <- drop_drop in Hy.
           by eapply subseteq_drop.
      * apply list_elem_of_singleton in He as ->. cbn in *.
        apply elem_of_app in Hy as [Hy|Hy].
        -- by destruct (Hheld y (Hsub y Hy)) as (_ & _ & ?).
        -- specialize (Hlate y Hy). lia.
Qed.

Lemma sched_inv_init o m pending : sched_inv o m pending (Sim 0 0 []) (init o m).
Proof.
  unfold sched_inv, on_time, best_first. cbn.
  split; [done|]. split; [apply init_heap_inv|].
  split; [constructor|]. split; [constructor|]. split.
  - intros i j e e' _ He. by rewrite lookup_nil in He.
  - intros e y He. by apply elem_of_nil in He.
Qed.

Lemma sim_loop_sched o m pending fuel : forall v s tl,
  StronglySorted (fun a b => arrival_key o a <= arrival_key o b) pending ->
  sim_inv o pending v s -> sched_inv o m pending v s ->
  sim_loop fuel pending v s = Some (Ok tl) ->
  on_time o tl /\ best_first o m tl.
Proof.
  induction fuel as [|fuel IH]; intros v s tl Hsorted Hinv Hsched Hrun; [done|].
  cbn [sim_loop] in Hrun. destruct (sim_cond pending v s) eqn:Hcond.
  - destruct (sim_body_run o pending v s Hinv Hcond)
      as (v1 & s1 & Hrun1 & Hinv1 & _).
    destruct (sim_body_sched o m pending v s Hsorted Hinv Hsched Hcond)
      as (v2 & s2 & Hrun2 & Hsched2).
    rewrite Hrun1 in Hrun2. injection Hrun2 as <- <-.
    rewrite Hrun1 in Hrun. by eapply IH.
  - injection Hrun as <-. by destruct Hsched as (_ & _ & _ & ? & ? & _).
Qed.

Lemma simulate_scheduler_sched o tasks m :
  exists tl, simulate_scheduler o tasks m = Some (Ok tl) /\
    on_time o tl /\ best_first o m tl.
Proof.
  destruct (simulate_scheduler_fuel_run o tasks m) as (tl & Hrun & _).
  exists tl. split; [done|].
  unfold simulate_scheduler_fuel in Hrun.
  eapply sim_loop_sched; [| | |exact Hrun].
  - apply sorted_sorted.
  - apply sim_inv_init.
  - apply sched_inv_init.
Qed.

End Schedule.

(** X11: [simulate_scheduler] never runs a task before its arrival time:
    every entry [(time, task)] of the returned timeline has
    [(task.arrival_time or 0) <= time]. *)
Theorem no_task_runs_early (o : store) (tasks : list loc) (m : bool) :
  exists tl, simulate_scheduler o tasks m = Some (Ok tl) /\
    forall time task, (time, task) ∈ tl ->
      py_or (arrival_time (o task)) 0 <= time.
Proof.
  destruct (simulate_scheduler_sched o tasks m) as (tl & Hrun & Hon & _).
  exists tl. split; [done|]. intros time task Hin.
  unfold on_time in Hon. rewrite Forall_forall in Hon.
  rewrite py_or_arrival_key. apply (Hon _ Hin).
Qed.

(** X12: [simulate_scheduler] always runs a best task among those that have
    arrived and not yet run: if a task runs later than an entry
    [(time, task)] although it had arrived by [time], its effective key (its
    priority in max mode, minus its priority in min mode) is not above that
    of [task]. *)
Theorem best_available_task_runs (o : store) (tasks : list loc) (m : bool) :
  exists tl, simulate_scheduler o tasks m = Some (Ok tl) /\
    forall i j time task time' task',
      (i < j)%nat ->
      tl !! i = Some (time, task) -> tl !! j = Some (time', task') ->
      py_or (arrival_time (o task')) 0 <= time ->
      (if m then priority (o task') else - priority (o task')) <=
      (if m then priority (o task) else - priority (o task)).
Proof.
  destruct (simulate_scheduler_sched o tasks m) as (tl & Hrun & _ & Hbest).
  exists tl. split; [done|]. intros i j time task time' task' Hij Hi Hj Harr.
  rewrite py_or_arrival_key in Harr.
  apply (Hbest i j _ _ Hij Hi Hj Harr).
Qed.

Lemma best_available_task_runs_witness :
  exists tl, simulate_scheduler main_store [0; 1; 2; 3]%nat true = Some (Ok tl) /\
    tl !! 0%nat = Some (0, 3%nat) /\ tl !! 2%nat = Some (2, 0%nat) /\
    priority (main_store 0%nat) <= priority (main_store 3%nat).
Proof.
  destruct (best_available_task_runs main_store [0; 1; 2; 3]%nat true)
    as (tl & Hrun & Hbest).
  assert (tl = [(0, 3%nat); (1, 1%nat); (2, 0%nat); (3, 2%nat)]) as Htl.
  { assert (simulate_scheduler main_store [0; 1; 2; 3]%nat true =
            Some (Ok [(0, 3%nat); (1, 1%nat); (2, 0%nat); (3, 2%nat)])) as He
      by (by vm_compute).
    rewrite Hrun in He. by injection He. }
  exists tl. split; [done|]. split; [by rewrite Htl|]. split; [by rewrite Htl|].
  apply (Hbest 0%nat 2%nat 0 3%nat 2 0%nat); [lia|by rewrite Htl..|by vm_compute].
Defined.

Section Idle.



End Idle.



Lemma no_task_runs_early_witness :
  exists tl, simulate_scheduler main_store [0; 1; 2; 3]%nat true = Some (Ok tl) /\
    (1, 1%nat) ∈ tl /\ py_or (arrival_time (main_store 1%nat)) 0 <= 1.
Proof.
  destruct (no_task_runs_early main_store [0; 1; 2; 3]%nat true)
    as (tl & Hrun & Hon).
  assert ((1, 1%nat) ∈ tl) as Hin.
  { assert (simulate_scheduler main_store [0; 1; 2; 3]%nat true =
            Some (Ok [(0, 3%nat); (1, 1%nat); (2, 0%nat); (3, 2%nat)])) as He
      by (by vm_compute).
    rewrite Hrun in He. injection He as ->.
    apply list_elem_of_lookup_2 with 1%nat. done. }
  exists tl. split; [done|]. split; [done|]. by apply Hon.
Defined.

Section PositionSound.

Lemma run_call_pos_sound c s :
  top_registered s -> pos_sound s -> pos_sound (run_call c s).
Proof.
  intros Ht Hso.
  assert (forall id p, pos_sound (snd (increase_key id p s))) as Hinc.
  { intros id p. destruct (position s !! id) as [idx|] eqn:Hpos;
      [|by rewrite increase_key_absent].
    destruct (heap s !! idx) as [t|] eqn:Hidx;
      [|by erewrite increase_key_stale].
    destruct (increase_key_run id p s idx t Hpos Hidx)
      as (s' & -> & _ & _ & _ & _ & _ & _ & _ & Hso' & _). cbn. auto. }
  destruct c as [t| |id p|id p]; cbn [run_call]; [| |apply Hinc|apply Hinc].
  - destruct (insert_run t s) as (s' & -> & _ & _ & _ & _ & _ & Hso' & _).
    cbn. auto.
  - destruct (heap s) as [|top rest] eqn:Hh.
    { by rewrite extract_top_empty. }
    destruct (extract_top_run s top) as (s' & -> & _ & _ & _ & _ & _ & Hso' & _);
      [by rewrite Hh|done|]. cbn. auto.
Qed.

Lemma run_calls_pos_sound cs : forall s,
  top_registered s -> pos_sound s -> pos_sound (run_calls cs s).
Proof.
  induction cs as [|c cs IH]; intros s Ht Hso; [done|].
  cbn. apply IH; [by apply run_call_top_registered|by apply run_call_pos_sound].
Qed.

End PositionSound.

(** X14: whatever calls were made on a queue since it was created, also
    with ids or objects inserted twice, every entry of the position map
    designates a slot of the heap that holds a task with that id; so
    [increase_key] either returns normally or raises [KeyError] and changes
    nothing: its [self.heap[idx]] never raises [IndexError]. *)
Theorem position_entries_valid (o : store) (m : bool) (cs : list call) :
  let s := run_calls cs (init o m) in
  (forall id i, position s !! id = Some i ->
     exists t, heap s !! i = Some t /\ task_id (objs s t) = id) /\
  (forall id p, fst (increase_key id p s) = Ok tt \/
                increase_key id p s = (Raise KeyError, s)).
Proof.
  intros s.
  assert (pos_sound s) as Hso.
  { apply run_calls_pos_sound; [apply init_top_registered|].
    intros id i Hi. by cbn in Hi. }
  split; [exact Hso|]. intros id p.
  destruct (position s !! id) as [idx|] eqn:Hpos;
    [|right; by apply increase_key_absent].
  destruct (Hso _ _ Hpos) as (t & Ht & _).
  destruct (increase_key_run id p s idx t Hpos Ht) as (s' & -> & _).
  by left.
Qed.

Lemma position_entries_valid_witness :
  let s := run_calls [Insert 0%nat; Insert 1%nat; ExtractTop; Insert 0%nat]
             (init twin_store false) in
  position s !! "x" = Some 1%nat /\
  exists t, heap s !! 1%nat = Some t /\ task_id (objs s t) = "x".
Proof.
  intros s. assert (position s !! "x" = Some 1%nat) as Hp by (by vm_compute).
  split; [exact Hp|].
  apply (proj1 (position_entries_valid twin_store false
                  [Insert 0%nat; Insert 1%nat; ExtractTop; Insert 0%nat])).
  exact Hp.
Defined.

(** * Further properties of heapsort *)

(** X15: the result of [heapsort] depends only on which integers its input
    holds and how often, not on their order. *)
Theorem heapsort_order_independent (arr arr' : list Z) :
  arr ≡ₚ arr' -> heapsort arr = heapsort arr'.
Proof.
  intros Hp.
  destruct (heapsort_run arr) as (out & -> & Hpo & Hs).
  destruct (heapsort_run arr') as (out' & -> & Hpo' & Hs').
  f_equal. apply (Sorted_unique Z.le); [done|done|].
  by rewrite Hpo, Hpo', Hp.
Qed.

Lemma heapsort_order_independent_witness :
  [3; 1; 2] ≡ₚ [2; 3; 1] /\ heapsort [3; 1; 2] = heapsort [2; 3; 1].
Proof.
  assert ([3; 1; 2] ≡ₚ [2; 3; 1]) as Hp.
  { apply (bool_decide_unpack _). by vm_compute. }
  split; [exact Hp|]. by apply heapsort_order_independent.
Defined.

(** X16: [heapsort] returns the list that Python's built-in [sorted]
    returns on the same integers. *)
Theorem heapsort_agrees_with_sorted (arr : list Z) :
  heapsort arr = Some (sorted (fun x => x) arr).
Proof.
  destruct (heapsort_run arr) as (out & -> & Hp & Hs).
  f_equal. apply (Sorted_unique Z.le); [done| |].
  - apply StronglySorted_Sorted. apply (sorted_sorted (fun x => x)).
  - by rewrite Hp, sorted_perm.
Qed.

(** X17: [sift_down(a, start, end)] with [end] within the array never
    raises; it permutes the array, leaves every slot after [end] as it was,
    and, when every slot after [start] already dominates its children up
    to [end], makes every slot from [start] on dominate its children up to
    [end]. *)
Theorem heapsort_sift_down_contract (a : list Z) (start end_ : nat) :
  (end_ < length a)%nat ->
  exists a', sift_down a start end_ = Some a' /\
    a' ≡ₚ a /\ (forall k, (end_ < k)%nat -> a' !! k = a !! k) /\
    ((forall i c x y, (start < i)%nat -> (c <= end_)%nat -> child i c ->
        a !! i = Some x -> a !! c = Some y -> y <= x) ->
     forall i c x y, (start <= i)%nat -> (c <= end_)%nat -> child i c ->
       a' !! i = Some x -> a' !! c = Some y -> y <= x).
Proof.
  intros Hend.
  destruct (heapsort_sift_down_run a start end_ Hend)
    as (a' & Hrun & (Hl & Hp & Hhi & _) & Hord).
  exists a'. split; [done|]. split; [done|]. split; [done|].
  intros Hbelow i c x y Hi Hc Hic Hx Hy.
  assert (ordered (zat a') start (S end_)) as Ho.
  { apply Hord, down_hole_start. intros i' c' Hi' Hc' Hic'.
    destruct (lookup_lt_is_Some_2 a c' ltac:(lia)) as [y' Hy'].
    destruct (lookup_lt_is_Some_2 a i' ltac:(unfold child in Hic'; lia))
      as [x' Hx'].
    unfold zat. rewrite Hx', Hy'.
    apply (Hbelow i' c'); [lia|lia|done|done|done]. }
  specialize (Ho i c Hi ltac:(lia) Hic). unfold zat in Ho.
  by rewrite Hx, Hy in Ho.
Qed.

Lemma heapsort_sift_down_contract_witness :
  (2 < length [1; 5; 3; 9])%nat /\
  exists a', sift_down [1; 5; 3; 9] 0 2 = Some a' /\ a' !! 3%nat = Some 9.
Proof.
  assert (2 < length [1; 5; 3; 9])%nat as Hlt by (cbn; lia).
  split; [exact Hlt|].
  destruct (heapsort_sift_down_contract [1; 5; 3; 9] 0 2 Hlt)
    as (a' & Hrun & _ & Hhi & _).
  exists a'. split; [done|]. rewrite Hhi by lia. done.
Defined.
